(** * Redis MCP server: dispatch, validation and connection resilience

    A shallow embedding of [src/redis/src/index.ts] (the revision with the
    sorted-set and pub/sub tools) and the properties its specification
    states about it.

    Layout of the development:
    - JavaScript values: JSON arguments, numbers, template rendering;
    - the reconnection strategy and the process lifecycle;
    - [Zod]: the validation combinators the argument schemas are built from;
    - the argument schemas and the discovery listing;
    - the command surface of the store client and the tool handlers, written
      as programs that await typed store commands, and how they run;
    - [Store]: a reference key space for the string and sorted-set commands;
    - the registry as the dispatcher uses it, and the notions the
      specification speaks in;
    - the properties.

    Numbers: a JavaScript number is a double.  The model carries the
    integral ones as [Z] (exactly representable, and rendered by template
    literals as plain decimal digits below 1e21); every number the
    properties below speak of -- counts, delays, the score 5, range
    indices, 0 -- is of that kind. *)

From Stdlib Require Import ZArith NArith Ascii String DecimalString Lia.
From stdpp Require Import base option list strings gmap.

Set Warnings "-register-all".
Set Default Proof Using "Type".

Open Scope Z_scope.

(** ** JavaScript values *)

(** A value as it arrives in [request.params.arguments]: the result of
    [JSON.parse], so no [undefined], no [NaN], no functions.  An object is
    a finite map from property names. *)
Inductive json :=
| JNull
| JBool (b : bool)
| JNum (n : Z)
| JStr (s : string)
| JArr (l : list json)
| JObj (m : gmap string json).

(** [`${n}`] for an integral number. *)
Definition show_number (n : Z) : string :=
  NilZero.string_of_int (Z.to_int n).

(** [xs.join(sep)] on an array of strings. *)
Fixpoint join (sep : string) (xs : list string) : string :=
  match xs with
  | [] => ""
  | [x] => x
  | x :: rest => x +:+ sep +:+ join sep rest
  end.

(** Truthiness of a number: [if (n)] takes the else branch on 0. *)
Definition truthy_number (n : Z) : bool := negb (n =? 0).

(** Truthiness of a string: [pattern || "*"], [pattern ? .. : ..]. *)
Definition truthy_string (s : string) : bool :=
  match s with EmptyString => false | _ => true end.

(** ** Connection manager: the reconnection strategy *)

Definition MAX_RETRIES : N := 5.
Definition MIN_RETRY_DELAY : N := 1000.
Definition MAX_RETRY_DELAY : N := 30000.

(** What [reconnectStrategy] hands back to the client library: a delay in
    milliseconds, or an [Error] object. *)
Inductive strategyResult :=
| Delay (ms : N)
| GiveUp (message : string).

Definition show_N (n : N) : string := show_number (Z.of_N n).

(** [reconnectStrategy: (retries) => ...].  [retries] is the number of
    attempts already made, a count; the second component is the line
    written by [console.error]. *)
Definition reconnectStrategy (retries : N) : strategyResult * string :=
  if (MAX_RETRIES <=? retries)%N then
    (GiveUp "Max retries reached",
     "Maximum retries (" +:+ show_N MAX_RETRIES +:+ ") reached. Giving up.")
  else
    let delay := N.min (2 ^ retries * MIN_RETRY_DELAY) MAX_RETRY_DELAY in
    (Delay delay,
     "Reconnection attempt " +:+ show_N (retries + 1) +:+ "/"
       +:+ show_N MAX_RETRIES +:+ " in " +:+ show_N delay +:+ "ms").

(** The connection states of the specification. *)
Inductive ConnectionState :=
| Disconnected
| Connecting
| Connected
| ReconnectExhausted.

(** How the client library drives the strategy (its documented contract,
    the library itself is not part of this repository): after a failed
    connection attempt it calls the strategy with the number of retries
    made so far; on a number it waits that long and tries again, on an
    [Error] it closes the client for good.  [attempts] lists the outcome
    of the successive connection attempts ([true]: the socket connected);
    the result is the delays that were scheduled and the state reached. *)
Fixpoint connectLoop (attempts : list bool) (retries : N)
  : list N * ConnectionState :=
  match attempts with
  | [] => ([], Connecting)
  | true :: _ => ([], Connected)
  | false :: rest =>
      match fst (reconnectStrategy retries) with
      | Delay ms =>
          let '(delays, st) := connectLoop rest (retries + 1) in
          (ms :: delays, st)
      | GiveUp _ => ([], ReconnectExhausted)
      end
  end.

(** ** Lifecycle controller *)

(** What the process does that the outside can observe.  The lines the
    event handlers of the client write ([connect], [reconnecting], [end],
    [error]) are advisory and left out. *)
Inductive effect :=
| RedisConnect
| RedisQuit
| ServerConnect
| ConsoleError (line : string)
| Exit (status : Z).

(** The ways [cleanup] gets called: as the handler of a termination
    signal, from the [catch] in [main], from the [.catch] on [main()]. *)
Inductive signal := SIGINT | SIGTERM.

Inductive trigger :=
| OnSignal (s : signal)
| StartupFailure (error : string)
| FatalInMain (error : string).

(** [async function cleanup()]: [quit] is the outcome of
    [redisClient.quit()], [Some e] when it rejects with [e]. *)
Definition cleanup (quit : option string) : list effect :=
  RedisQuit
  :: match quit with
     | Some e => [ConsoleError ("Error during cleanup: " +:+ e)]
     | None => []
     end
  ++ [Exit 1].

(** [process.on('SIGINT', cleanup)], [process.on('SIGTERM', cleanup)], the
    [catch] block of [main] and the [.catch] of [main()]. *)
Definition shutdown (t : trigger) (quit : option string) : list effect :=
  match t with
  | OnSignal _ => cleanup quit
  | StartupFailure e =>
      ConsoleError ("Error during startup: " +:+ e) :: cleanup quit
  | FatalInMain e =>
      ConsoleError ("Fatal error in main(): " +:+ e) :: cleanup quit
  end.

(** [async function main()]: [connect] and [transport] are the outcomes of
    [redisClient.connect()] and [server.connect(transport)]. *)
Definition main (connect transport quit : option string) : list effect :=
  RedisConnect
  :: match connect with
     | Some e => shutdown (StartupFailure e) quit
     | None =>
         ServerConnect
         :: match transport with
            | Some e => shutdown (StartupFailure e) quit
            | None => [ConsoleError "Redis MCP Server running on stdio"]
            end
     end.

(** The status the process exits with, if the run ends in [process.exit]. *)
Fixpoint exitStatus (run : list effect) : option Z :=
  match run with
  | [] => None
  | Exit status :: _ => Some status
  | _ :: rest => exitStatus rest
  end.

(** Whether the run asks the client to close the connection. *)
Fixpoint closesConnection (run : list effect) : bool :=
  match run with
  | [] => false
  | RedisQuit :: _ => true
  | _ :: rest => closesConnection rest
  end.

(** ** Validation combinators

    The argument schemas are built with the zod library ([z.string()],
    [z.object({..})], [.or], [.optional], [.default]).  The library is not
    part of this repository; the combinators the schemas use are modelled
    after its documented parsing rules, with the default messages of its
    error map.  A schema is indexed by the type its [parse] infers. *)
Module Zod.

(** A [ZodIssue]: where, and why. *)
Record issue := Issue { path : list string; message : string }.

(** The type names of [getParsedType]; [None] is [undefined], which is
    what reading an absent property yields. *)
Definition parsedType (v : option json) : string :=
  match v with
  | None => "undefined"
  | Some JNull => "null"
  | Some (JBool _) => "boolean"
  | Some (JNum _) => "number"
  | Some (JStr _) => "string"
  | Some (JArr _) => "array"
  | Some (JObj _) => "object"
  end.

(** The [invalid_type] issue under the default error map. *)
Definition invalid_type (p : list string) (expected : string)
    (v : option json) : issue :=
  Issue p
    match v with
    | None => "Required"
    | Some _ => "Expected " +:+ expected +:+ ", received " +:+ parsedType v
    end.

(** The [invalid_union] issue: no option of the union accepted. *)
Definition invalid_union (p : list string) : issue :=
  Issue p "Invalid input".

Inductive schema : Type -> Type :=
| z_string : schema string
| z_number : schema Z
| z_boolean : schema bool
| z_array {A} (item : schema A) : schema (list A)
| z_or {A B} (a : schema A) (b : schema B) : schema (A + B)
| z_optional {A} (inner : schema A) : schema (option A)
| z_default {A} (inner : schema A) (value : A) : schema A.

(** Collect the results of parsing the elements of an array (or the
    fields of an object): the values if all are valid, otherwise every
    issue, in order. *)
Definition merge {A B C} (f : A -> B -> C)
    (x : A + list issue) (y : B + list issue) : C + list issue :=
  match x, y with
  | inl a, inl b => inl (f a b)
  | inl _, inr j => inr j
  | inr i, inl _ => inr i
  | inr i, inr j => inr (i ++ j)
  end.

Fixpoint mergeArray {A} (rs : list (A + list issue)) : list A + list issue :=
  match rs with
  | [] => inl []
  | r :: rest => merge cons r (mergeArray rest)
  end.

(** [schema._parse]: the value, or the issues found. *)
Fixpoint parse {A} (s : schema A) (p : list string) (v : option json)
  : A + list issue :=
  match s in schema A return A + list issue with
  | z_string =>
      match v with
      | Some (JStr x) => inl x
      | _ => inr [invalid_type p "string" v]
      end
  | z_number =>
      match v with
      | Some (JNum n) => inl n
      | _ => inr [invalid_type p "number" v]
      end
  | z_boolean =>
      match v with
      | Some (JBool b) => inl b
      | _ => inr [invalid_type p "boolean" v]
      end
  | z_array item =>
      match v with
      | Some (JArr l) =>
          mergeArray
            (imap (fun i x => parse item (p ++ [show_number (Z.of_nat i)]) (Some x)) l)
      | _ => inr [invalid_type p "array" v]
      end
  | z_or a b =>
      match parse a p v with
      | inl x => inl (inl x)
      | inr _ =>
          match parse b p v with
          | inl y => inl (inr y)
          | inr _ => inr [invalid_union p]
          end
      end
  | z_optional inner =>
      match v with
      | None => inl None
      | Some _ => match parse inner p v with
                  | inl x => inl (Some x)
                  | inr i => inr i
                  end
      end
  | z_default inner value =>
      match v with
      | None => inl value
      | Some _ => parse inner p v
      end
  end.

(** The shape of a [z.object]: its fields in declaration order. *)
Inductive shape : Type -> Type :=
| no_more : shape unit
| field {A B} (name : string) (s : schema A) (rest : shape B) : shape (A * B).

(** Unknown keys are stripped: only the declared fields are read. *)
Fixpoint parseFields {T} (sh : shape T) (p : list string)
    (o : gmap string json) : T + list issue :=
  match sh in shape T return T + list issue with
  | no_more => inl tt
  | field name s rest =>
      merge pair (parse s (p ++ [name]) (o !! name)) (parseFields rest p o)
  end.

(** [z.object(shape).safeParse(data)]; [data] is [None] when the
    invocation carries no [arguments] at all. *)
Definition parseObject {T} (sh : shape T) (data : option (gmap string json))
  : T + list issue :=
  match data with
  | Some o => parseFields sh [] o
  | None => inr [invalid_type [] "object" None]
  end.

(** [schema.isOptional()]: whether [undefined] is accepted, so that the
    field may be left out. *)
Fixpoint isOptional {A} (s : schema A) : bool :=
  match s with
  | z_string | z_number | z_boolean | z_array _ => false
  | z_or a b => isOptional a || isOptional b
  | z_optional _ | z_default _ _ => true
  end.

Fixpoint fieldNames {T} (sh : shape T) : list string :=
  match sh with
  | no_more => []
  | field name _ rest => name :: fieldNames rest
  end.

Fixpoint requiredNames {T} (sh : shape T) : list string :=
  match sh with
  | no_more => []
  | field name s rest =>
      if isOptional s then requiredNames rest
      else name :: requiredNames rest
  end.

End Zod.
Import Zod.

(** ** Schema registry: the argument schemas *)

Definition SetArgumentsSchema :=
  field "key" z_string $ field "value" z_string $
  field "expireSeconds" (z_optional z_number) no_more.

Definition GetArgumentsSchema := field "key" z_string no_more.

Definition DeleteArgumentsSchema :=
  field "key" (z_or z_string (z_array z_string)) no_more.

Definition ListArgumentsSchema :=
  field "pattern" (z_default z_string "*") no_more.

Definition HSetArgumentsSchema :=
  field "key" z_string $ field "field" z_string $
  field "value" z_string no_more.

Definition HGetArgumentsSchema :=
  field "key" z_string $ field "field" z_string no_more.

Definition HGetAllArgumentsSchema := field "key" z_string no_more.

Definition IncrArgumentsSchema := field "key" z_string no_more.

Definition ExpireArgumentsSchema :=
  field "key" z_string $ field "seconds" z_number no_more.

Definition LPushArgumentsSchema :=
  field "key" z_string $
  field "value" (z_or z_string (z_array z_string)) no_more.

Definition RPushArgumentsSchema :=
  field "key" z_string $
  field "value" (z_or z_string (z_array z_string)) no_more.

Definition LPopArgumentsSchema := field "key" z_string no_more.

Definition RPopArgumentsSchema := field "key" z_string no_more.

Definition LRangeArgumentsSchema :=
  field "key" z_string $ field "start" z_number $
  field "stop" z_number no_more.

Definition ZAddArgumentsSchema :=
  field "key" z_string $ field "score" z_number $
  field "member" z_string no_more.

Definition ZRangeArgumentsSchema :=
  field "key" z_string $ field "min" z_number $ field "max" z_number $
  field "withScores" (z_optional z_boolean) no_more.

Definition ZRemArgumentsSchema :=
  field "key" z_string $
  field "member" (z_or z_string (z_array z_string)) no_more.

Definition ZScoreArgumentsSchema :=
  field "key" z_string $ field "member" z_string no_more.

Definition ZRankArgumentsSchema :=
  field "key" z_string $ field "member" z_string no_more.

Definition PublishArgumentsSchema :=
  field "channel" z_string $ field "message" z_string no_more.

Definition SubscribeArgumentsSchema :=
  field "channel" (z_or z_string (z_array z_string)) no_more.

Definition UnsubscribeArgumentsSchema :=
  field "channel" (z_optional (z_or z_string (z_array z_string))) no_more.

Definition PubSubChannelsArgumentsSchema :=
  field "pattern" (z_optional z_string) no_more.

(** ** Schema registry: the discovery listing *)

(** What stands at a property of an advertised [inputSchema]: a JSON
    Schema descriptor ([{ type: .. }], [{ type: "array", items: .. }],
    [{ oneOf: [..] }]) -- or, in the sorted-set entries, a zod schema
    object. *)
Inductive descriptor :=
| OfType (type : string)
| ArrayOf (items : descriptor)
| OneOf (alternatives : list descriptor)
| ZodObject {A} (s : schema A).

Record property := Property {
  propertyName : string;
  propertySchema : descriptor;
  propertyDescription : option string
}.

Record inputSchema := InputSchema {
  schemaType : string;
  properties : list property;
  required : option (list string)
}.

Record tool := Tool {
  name : string;
  description : string;
  toolInputSchema : inputSchema
}.

Definition described (n type text : string) : property :=
  Property n (OfType type) (Some text).

Definition stringOrArray (n text : string) : property :=
  Property n (OneOf [OfType "string"; ArrayOf (OfType "string")]) (Some text).

Definition zod {A} (n : string) (s : schema A) : property :=
  Property n (ZodObject s) None.

Definition object (props : list property) (req : option (list string)) :=
  InputSchema "object" props req.

(** The [tools] array returned by the [ListToolsRequestSchema] handler. *)
Definition listTools : list tool :=
  [ Tool "set" "Set a Redis key-value pair with optional expiration"
      (object
         [ described "key" "string" "Redis key";
           described "value" "string" "Value to store";
           described "expireSeconds" "number"
             "Optional expiration time in seconds" ]
         (Some ["key"; "value"]));
    Tool "get" "Get value by key from Redis"
      (object [ described "key" "string" "Redis key to retrieve" ]
         (Some ["key"]));
    Tool "delete" "Delete one or more keys from Redis"
      (object [ stringOrArray "key" "Key or array of keys to delete" ]
         (Some ["key"]));
    Tool "list" "List Redis keys matching a pattern"
      (object
         [ described "pattern" "string" "Pattern to match keys (default: *)" ]
         None);
    Tool "hset" "Set field in a hash stored at key to value"
      (object
         [ described "key" "string" "Redis hash key";
           described "field" "string" "Hash field name";
           described "value" "string" "Value to store" ]
         (Some ["key"; "field"; "value"]));
    Tool "hget" "Get the value of a hash field stored at key"
      (object
         [ described "key" "string" "Redis hash key";
           described "field" "string" "Hash field name to retrieve" ]
         (Some ["key"; "field"]));
    Tool "hgetall" "Get all fields and values in a hash"
      (object [ described "key" "string" "Redis hash key" ] (Some ["key"]));
    Tool "incr" "Increment the integer value of a key by one"
      (object [ described "key" "string" "Redis key to increment" ]
         (Some ["key"]));
    Tool "expire" "Set a key's time to live in seconds"
      (object
         [ described "key" "string" "Redis key";
           described "seconds" "number" "Expiration time in seconds" ]
         (Some ["key"; "seconds"]));
    Tool "lpush" "Insert one or multiple values at the beginning of a list"
      (object
         [ described "key" "string" "Redis list key";
           stringOrArray "value"
             "Value or array of values to push to the list" ]
         (Some ["key"; "value"]));
    Tool "rpush" "Insert one or multiple values at the end of a list"
      (object
         [ described "key" "string" "Redis list key";
           stringOrArray "value"
             "Value or array of values to push to the list" ]
         (Some ["key"; "value"]));
    Tool "lpop" "Remove and get the first element in a list"
      (object [ described "key" "string" "Redis list key" ] (Some ["key"]));
    Tool "rpop" "Remove and get the last element in a list"
      (object [ described "key" "string" "Redis list key" ] (Some ["key"]));
    Tool "lrange" "Get a range of elements from a list"
      (object
         [ described "key" "string" "Redis list key";
           described "start" "number" "Start index (0-based)";
           described "stop" "number" "Stop index (inclusive)" ]
         (Some ["key"; "start"; "stop"]));
    Tool "zadd" "Add a member with a score to a sorted set"
      (object
         [ zod "key" z_string; zod "score" z_number; zod "member" z_string ]
         (Some ["key"; "score"; "member"]));
    Tool "zrange" "Return a range of members in a sorted set by index"
      (object
         [ zod "key" z_string; zod "min" z_number; zod "max" z_number;
           zod "withScores" (z_optional z_boolean) ]
         (Some ["key"; "min"; "max"]));
    Tool "zrem" "Remove one or more members from a sorted set"
      (object
         [ zod "key" z_string;
           zod "member" (z_or z_string (z_array z_string)) ]
         (Some ["key"; "member"]));
    Tool "zscore" "Get the score of a member in a sorted set"
      (object [ zod "key" z_string; zod "member" z_string ]
         (Some ["key"; "member"]));
    Tool "zrank" "Get the rank of a member in a sorted set (0-based)"
      (object [ zod "key" z_string; zod "member" z_string ]
         (Some ["key"; "member"]));
    Tool "publish" "Publish a message to a channel"
      (object
         [ described "channel" "string" "Channel to publish to";
           described "message" "string" "Message to publish" ]
         (Some ["channel"; "message"]));
    Tool "pubsub_channels"
      "List active channels (with at least one subscriber)"
      (object
         [ described "pattern" "string"
             "Pattern to filter channels (optional)" ]
         None) ].

(** ** The store client: commands and replies

    One constructor per client method the handlers call, indexed by the
    type of the reply the method resolves to.  A field that takes one
    item or an array of items is [string + list string]. *)
Inductive command : Type -> Type :=
| SET (key value : string) : command (option string)
| SETEX (key : string) (seconds : Z) (value : string) : command string
| GET (key : string) : command (option string)
| DEL (keys : string + list string) : command Z
| KEYS (pattern : string) : command (list string)
| HSET (key fld value : string) : command Z
| HGET (key fld : string) : command (option string)
| HGETALL (key : string) : command (list (string * string))
| INCR (key : string) : command Z
| EXPIRE (key : string) (seconds : Z) : command bool
| LPUSH (key : string) (elements : string + list string) : command Z
| RPUSH (key : string) (elements : string + list string) : command Z
| LPOP (key : string) : command (option string)
| RPOP (key : string) : command (option string)
| LRANGE (key : string) (start stop : Z) : command (list string)
| ZADD (key : string) (members : list (Z * string)) : command Z
| ZRANGE_WITHSCORES (key : string) (min max : Z) : command (list (string * Z))
| ZRANGE (key : string) (min max : Z) : command (list string)
| ZREM (key : string) (members : string + list string) : command Z
| ZSCORE (key member : string) : command (option Z)
| ZRANK (key member : string) : command (option Z)
| PUBLISH (channel message : string) : command Z
| PUBSUB_CHANNELS (pattern : string) : command (list string).

(** A command that was handed to the client, its reply type forgotten. *)
Inductive issued :=
| Issued {R} (c : command R).

(** The canonical form of a one-or-many field, in the specification's
    terms: a single item is the one-element sequence, a collection is
    itself. *)
Definition normalized (v : string + list string) : list string :=
  match v with
  | inl item => [item]
  | inr items => items
  end.

(** The JSON an invocation carries for a one-or-many field. *)
Definition oneOrMany (v : string + list string) : json :=
  match v with
  | inl item => JStr item
  | inr items => JArr (JStr <$> items)
  end.

(** How the client library lays a one-or-many argument out on the wire
    (its [pushVerdictArguments]): a single item is appended, an array is
    appended item by item. *)
Definition pushVerdictArguments (args : list string)
    (v : string + list string) : list string :=
  match v with
  | inl item => args ++ [item]
  | inr items => args ++ items
  end.

(** The argument vector sent to the store for the commands that take a
    one-or-many field; [None] for the other commands, which no property
    below looks at on the wire. *)
Definition transformArguments {R} (c : command R) : option (list string) :=
  match c with
  | DEL keys => Some (pushVerdictArguments ["DEL"] keys)
  | LPUSH key elements => Some (pushVerdictArguments ["LPUSH"; key] elements)
  | RPUSH key elements => Some (pushVerdictArguments ["RPUSH"; key] elements)
  | ZREM key members => Some (pushVerdictArguments ["ZREM"; key] members)
  | _ => None
  end.

(** ** Dispatcher: the tool handlers *)

(** What can be thrown inside the [CallToolRequestSchema] handler. *)
Inductive exn :=
| ZodError (issues : list issue)
| Error (message : string)
| ClientError (message : string).

Record TextContent := { contentType : string; text : string }.

Record CallToolResult := { content : list TextContent }.

(** [{ content: [{ type: "text", text }] }] *)
Definition textResult (t : string) : CallToolResult :=
  {| content := [ {| contentType := "text"; text := t |} ] |}.

(** An [async] body: it returns, throws, awaits a command of the store
    client and goes on with the reply, or runs a [try] block under a
    [catch]. *)
Inductive program (A : Type) : Type :=
| Return (a : A)
| Throw (e : exn)
| Await {R} (c : command R) (k : R -> program A)
| TryCatch (body : program A) (handler : exn -> program A).

Arguments Return {A} a.
Arguments Throw {A} e.
Arguments Await {A R} c k.
Arguments TryCatch {A} body handler.

Notation "'let*' x := e 'in' k" := (e (fun x => k))
  (at level 10, x pattern, e at level 100, k at level 200, only parsing).

(** [Schema.parse(args)]: the typed fields, or a thrown [ZodError]. *)
Definition parseArgs {T A} (sh : shape T) (args : option (gmap string json))
    (k : T -> program A) : program A :=
  match parseObject sh args with
  | inl fields => k fields
  | inr issues => Throw (ZodError issues)
  end.

Definition nl : string := String "010"%char "".

(** [Array.isArray(v)] on a one-or-many field. *)
Definition isArray (v : string + list string) : bool :=
  match v with inl _ => false | inr _ => true end.

Definition replyText (t : string) : program CallToolResult :=
  Return (textResult t).

(** The [try] block: one branch per tool name, in the order of the
    [if .. else if] chain. *)
Definition handlers (name : string) (args : option (gmap string json))
  : program CallToolResult :=
  if String.eqb name "set" then
    let* (key, (value, (expireSeconds, tt))) :=
      parseArgs SetArgumentsSchema args in
    let answer := replyText ("Successfully set key: " +:+ key) in
    match expireSeconds with
    | Some seconds =>
        if truthy_number seconds
        then let* _ := Await (SETEX key seconds value) in answer
        else let* _ := Await (SET key value) in answer
    | None => let* _ := Await (SET key value) in answer
    end
  else if String.eqb name "get" then
    let* (key, tt) := parseArgs GetArgumentsSchema args in
    let* value := Await (GET key) in
    match value with
    | None => replyText ("Key not found: " +:+ key)
    | Some value => replyText value
    end
  else if String.eqb name "delete" then
    let* (key, tt) := parseArgs DeleteArgumentsSchema args in
    match key with
    | inr keys =>
        let* _ := Await (DEL (inr keys)) in
        replyText ("Successfully deleted "
                     +:+ show_number (Z.of_nat (length keys)) +:+ " keys")
    | inl key =>
        let* _ := Await (DEL (inl key)) in
        replyText ("Successfully deleted key: " +:+ key)
    end
  else if String.eqb name "list" then
    let* (pattern, tt) := parseArgs ListArgumentsSchema args in
    let* keys := Await (KEYS pattern) in
    replyText (if (0 <? Z.of_nat (length keys))
               then "Found keys:" +:+ nl +:+ join nl keys
               else "No keys found matching pattern")
  else if String.eqb name "hset" then
    let* (key, (fld, (value, tt))) := parseArgs HSetArgumentsSchema args in
    let* _ := Await (HSET key fld value) in
    replyText ("Successfully set hash field " +:+ fld +:+ " in key: " +:+ key)
  else if String.eqb name "hget" then
    let* (key, (fld, tt)) := parseArgs HGetArgumentsSchema args in
    let* value := Await (HGET key fld) in
    match value with
    | None =>
        replyText ("Field " +:+ fld +:+ " not found in hash key: " +:+ key)
    | Some value => replyText value
    end
  else if String.eqb name "hgetall" then
    let* (key, tt) := parseArgs HGetAllArgumentsSchema args in
    let* hashData := Await (HGETALL key) in
    if (length hashData =? 0)%nat then
      replyText ("Hash key not found or empty: " +:+ key)
    else
      replyText (join nl (map (fun '(fld, value) => fld +:+ ": " +:+ value)
                            hashData))
  else if String.eqb name "incr" then
    let* (key, tt) := parseArgs IncrArgumentsSchema args in
    let* newValue := Await (INCR key) in
    replyText ("Incremented key: " +:+ key +:+ ", new value: "
                 +:+ show_number newValue)
  else if String.eqb name "expire" then
    let* (key, (seconds, tt)) := parseArgs ExpireArgumentsSchema args in
    let* result := Await (EXPIRE key seconds) in
    if result : bool then
      replyText ("Successfully set expiration of " +:+ show_number seconds
                   +:+ " seconds for key: " +:+ key)
    else
      replyText ("Failed to set expiration: key " +:+ key
                   +:+ " does not exist")
  else if String.eqb name "lpush" then
    let* (key, (value, tt)) := parseArgs LPushArgumentsSchema args in
    let* result :=
      (if isArray value then Await (LPUSH key value)
       else Await (LPUSH key value)) in
    replyText ("成功添加到列表开头，新长度: " +:+ show_number result)
  else if String.eqb name "rpush" then
    let* (key, (value, tt)) := parseArgs RPushArgumentsSchema args in
    let* result :=
      (if isArray value then Await (RPUSH key value)
       else Await (RPUSH key value)) in
    replyText ("成功添加到列表末尾，新长度: " +:+ show_number result)
  else if String.eqb name "lpop" then
    let* (key, tt) := parseArgs LPopArgumentsSchema args in
    let* result := Await (LPOP key) in
    match result with
    | None => replyText ("列表为空或不存在: " +:+ key)
    | Some result => replyText result
    end
  else if String.eqb name "rpop" then
    let* (key, tt) := parseArgs RPopArgumentsSchema args in
    let* result := Await (RPOP key) in
    match result with
    | None => replyText ("列表为空或不存在: " +:+ key)
    | Some result => replyText result
    end
  else if String.eqb name "lrange" then
    let* (key, (start, (stop, tt))) :=
      parseArgs LRangeArgumentsSchema args in
    let* result := Await (LRANGE key start stop) in
    if (length result =? 0)%nat then
      replyText ("指定范围内没有元素或列表不存在: " +:+ key)
    else replyText (join nl result)
  else if String.eqb name "zadd" then
    let* (key, (score, (member, tt))) :=
      parseArgs ZAddArgumentsSchema args in
    let* result := Await (ZADD key [(score, member)]) in
    replyText ("成功添加到有序集合，影响的成员数: " +:+ show_number result)
  else if String.eqb name "zrange" then
    let* (key, (min, (max, (withScores, tt)))) :=
      parseArgs ZRangeArgumentsSchema args in
    if default false withScores then
      let* result := Await (ZRANGE_WITHSCORES key min max) in
      if (length result =? 0)%nat then
        replyText ("指定范围内没有成员或有序集合不存在: " +:+ key)
      else
        replyText (join nl (map (fun '(value, score) =>
                                   value +:+ ": " +:+ show_number score)
                              result))
    else
      let* result := Await (ZRANGE key min max) in
      if (length result =? 0)%nat then
        replyText ("指定范围内没有成员或有序集合不存在: " +:+ key)
      else replyText (join nl result)
  else if String.eqb name "zrem" then
    let* (key, (member, tt)) := parseArgs ZRemArgumentsSchema args in
    let* result :=
      (if isArray member then Await (ZREM key member)
       else Await (ZREM key member)) in
    replyText ("从有序集合中移除了 " +:+ show_number result
                 +:+ " 个成员: " +:+ key)
  else if String.eqb name "zscore" then
    let* (key, (member, tt)) := parseArgs ZScoreArgumentsSchema args in
    let* result := Await (ZSCORE key member) in
    match result with
    | None => replyText ("成员在有序集合中不存在: " +:+ key)
    | Some result => replyText ("分数: " +:+ show_number result)
    end
  else if String.eqb name "zrank" then
    let* (key, (member, tt)) := parseArgs ZRankArgumentsSchema args in
    let* result := Await (ZRANK key member) in
    match result with
    | None => replyText ("成员在有序集合中不存在: " +:+ key)
    | Some result => replyText ("排名: " +:+ show_number result)
    end
  else if String.eqb name "publish" then
    let* (channel, (message, tt)) :=
      parseArgs PublishArgumentsSchema args in
    let* subscriberCount := Await (PUBLISH channel message) in
    replyText ("消息已发布到频道 " +:+ channel +:+ "，有 "
                 +:+ show_number subscriberCount +:+ " 个订阅者接收到消息")
  else if String.eqb name "pubsub_channels" then
    let* (pattern, tt) := parseArgs PubSubChannelsArgumentsSchema args in
    let given := match pattern with
                 | Some p => if truthy_string p then Some p else None
                 | None => None
                 end in
    let* channels := Await (PUBSUB_CHANNELS (default "*" given)) in
    if (length channels =? 0)%nat then
      replyText ("没有找到活跃的频道"
                   +:+ match given with
                       | Some p => "匹配模式 " +:+ p
                       | None => ""
                       end)
    else replyText ("活跃的频道:" +:+ nl +:+ join nl channels)
  else
    Throw (Error ("Unknown tool: " +:+ name)).

(** The [catch] block: a [ZodError] is rethrown as an [Error] that lists
    every issue as [path: message]; anything else is rethrown as it is. *)
Definition catchBlock (error : exn) : program CallToolResult :=
  match error with
  | ZodError errors =>
      Throw (Error ("Invalid arguments: "
                      +:+ join ", "
                            (map (fun e => join "." (path e) +:+ ": "
                                             +:+ message e) errors)))
  | _ => Throw error
  end.

(** The [CallToolRequestSchema] handler. *)
Definition CallTool (name : string) (args : option (gmap string json))
  : program CallToolResult :=
  TryCatch (handlers name args) catchBlock.

(** ** Running a handler against a store client

    A client answers a command in a state of the world with a reply or a
    rejection (the message of the error it rejects with) and a new state.
    [run] gives the result of the handler, the state it leaves, and the
    commands it handed to the client, in order. *)
Section Run.

Context {world : Type}.
Variable client : forall R, command R -> world -> (R + string) * world.

Fixpoint run {A} (p : program A) (w : world)
  : (A + exn) * world * list issued :=
  match p with
  | Return a => (inl a, w, [])
  | Throw e => (inr e, w, [])
  | Await c k =>
      match client _ c w with
      | (inl reply, w') =>
          let '(r, w'', t) := run (k reply) w' in (r, w'', Issued c :: t)
      | (inr rejection, w') => (inr (ClientError rejection), w', [Issued c])
      end
  | TryCatch body handler =>
      match run body w with
      | (inr e, w', t) =>
          let '(r, w'', t') := run (handler e) w' in (r, w'', t ++ t')
      | done => done
      end
  end.

Definition result {A} (o : (A + exn) * world * list issued) : A + exn :=
  fst (fst o).

Definition final {A} (o : (A + exn) * world * list issued) : world :=
  snd (fst o).

Definition trace {A} (o : (A + exn) * world * list issued) : list issued :=
  snd o.

End Run.

(** ** A reference store

    The store is an external collaborator.  For the properties that speak
    of what the store holds (an absent key, a member of a sorted set) this
    is a reference key space with the documented behaviour of the string
    and sorted-set commands they involve -- GET, SET, DEL, ZADD, ZSCORE,
    ZREM -- on a reachable store, at one instant (no expiry).  Every other
    command is answered by [other], about which nothing is assumed. *)
Module Store.

Inductive entry :=
| Str (value : string)
| Hash (fields : gmap string string)
| List (elements : list string)
| ZSet (scores : gmap string Z).

Abbreviation keyspace := (gmap string entry).

Definition WRONGTYPE : string :=
  "WRONGTYPE Operation against a key holding the wrong kind of value".

Definition wrongArity (cmd : string) : string :=
  "ERR wrong number of arguments for '" +:+ cmd +:+ "' command".

(** The sorted set a key stands for: the one stored there, the empty one
    when the key is absent, none when the key holds another kind of
    value. *)
Definition sortedSetAt (ks : keyspace) (key : string)
  : option (gmap string Z) :=
  match ks !! key with
  | None => Some ∅
  | Some (ZSet z) => Some z
  | Some _ => None
  end.

(** DEL: each key in turn; the reply counts the keys that were there. *)
Fixpoint del (keys : list string) (ks : keyspace) : Z * keyspace :=
  match keys with
  | [] => (0, ks)
  | k :: rest =>
      match ks !! k with
      | Some _ => let '(n, ks') := del rest (delete k ks) in (1 + n, ks')
      | None => del rest ks
      end
  end.

(** ZADD: each score-member pair in turn; the reply counts the members
    that were new (an existing member has its score updated). *)
Fixpoint zadd (members : list (Z * string)) (z : gmap string Z)
  : Z * gmap string Z :=
  match members with
  | [] => (0, z)
  | (score, member) :: rest =>
      let '(n, z') := zadd rest (<[member := score]> z) in
      (match z !! member with Some _ => n | None => 1 + n end, z')
  end.

(** ZREM: each member in turn; the reply counts the members removed. *)
Fixpoint zrem (members : list string) (z : gmap string Z)
  : Z * gmap string Z :=
  match members with
  | [] => (0, z)
  | member :: rest =>
      match z !! member with
      | Some _ => let '(n, z') := zrem rest (delete member z) in (1 + n, z')
      | None => zrem rest z
      end
  end.

Section Exec.

Variable other : forall R, command R -> keyspace -> (R + string) * keyspace.

Definition exec (R : Type) (c : command R) (ks : keyspace)
  : (R + string) * keyspace :=
  match c in command R return (R + string) * keyspace with
  | GET key =>
      match ks !! key with
      | None => (inl None, ks)
      | Some (Str value) => (inl (Some value), ks)
      | Some _ => (inr WRONGTYPE, ks)
      end
  | SET key value => (inl (Some "OK"), <[key := Str value]> ks)
  | DEL keys =>
      match normalized keys with
      | [] => (inr (wrongArity "del"), ks)
      | l => let '(n, ks') := del l ks in (inl n, ks')
      end
  | ZADD key members =>
      match members with
      | [] => (inr (wrongArity "zadd"), ks)
      | _ =>
          match ks !! key with
          | None =>
              let '(n, z) := zadd members ∅ in (inl n, <[key := ZSet z]> ks)
          | Some (ZSet z0) =>
              let '(n, z) := zadd members z0 in (inl n, <[key := ZSet z]> ks)
          | Some _ => (inr WRONGTYPE, ks)
          end
      end
  | ZSCORE key member =>
      match ks !! key with
      | None => (inl None, ks)
      | Some (ZSet z) => (inl (z !! member), ks)
      | Some _ => (inr WRONGTYPE, ks)
      end
  | ZREM key members =>
      match normalized members with
      | [] => (inr (wrongArity "zrem"), ks)
      | l =>
          match ks !! key with
          | None => (inl 0, ks)
          | Some (ZSet z0) =>
              let '(n, z) := zrem l z0 in
              (inl n,
               if decide (z = ∅) then delete key ks
               else <[key := ZSet z]> ks)
          | Some _ => (inr WRONGTYPE, ks)
          end
      end
  | c' => other _ c' ks
  end.

End Exec.

End Store.

(** ** The registry, as the dispatcher uses it

    The schema each branch of [handlers] parses the arguments with, by
    tool name, in the order of the branches. *)
Inductive registered :=
| Registered {T} (sh : shape T).

Definition registry : list (string * registered) :=
  [ ("set", Registered SetArgumentsSchema);
    ("get", Registered GetArgumentsSchema);
    ("delete", Registered DeleteArgumentsSchema);
    ("list", Registered ListArgumentsSchema);
    ("hset", Registered HSetArgumentsSchema);
    ("hget", Registered HGetArgumentsSchema);
    ("hgetall", Registered HGetAllArgumentsSchema);
    ("incr", Registered IncrArgumentsSchema);
    ("expire", Registered ExpireArgumentsSchema);
    ("lpush", Registered LPushArgumentsSchema);
    ("rpush", Registered RPushArgumentsSchema);
    ("lpop", Registered LPopArgumentsSchema);
    ("rpop", Registered RPopArgumentsSchema);
    ("lrange", Registered LRangeArgumentsSchema);
    ("zadd", Registered ZAddArgumentsSchema);
    ("zrange", Registered ZRangeArgumentsSchema);
    ("zrem", Registered ZRemArgumentsSchema);
    ("zscore", Registered ZScoreArgumentsSchema);
    ("zrank", Registered ZRankArgumentsSchema);
    ("publish", Registered PublishArgumentsSchema);
    ("pubsub_channels", Registered PubSubChannelsArgumentsSchema) ].

(** ** What the specification says about validation

    The declared type check of a field, in the specification's terms: a
    string, a number, a boolean, a string or an array of strings. *)
Fixpoint conforms {A} (s : schema A) (v : json) : bool :=
  match s with
  | z_string => match v with JStr _ => true | _ => false end
  | z_number => match v with JNum _ => true | _ => false end
  | z_boolean => match v with JBool _ => true | _ => false end
  | z_array item =>
      match v with JArr l => forallb (conforms item) l | _ => false end
  | z_or a b => conforms a v || conforms b v
  | z_optional inner => conforms inner v
  | z_default inner _ => conforms inner v
  end.

(** Reading a field of the raw arguments; nothing can be read when the
    invocation carries no arguments. *)
Definition readField (args : option (gmap string json)) (n : string)
  : option json :=
  match args with
  | Some o => o !! n
  | None => None
  end.

(** The required fields that are absent, in declaration order. *)
Fixpoint absentRequired {T} (sh : shape T) (args : option (gmap string json))
  : list string :=
  match sh with
  | no_more => []
  | field n s rest =>
      match readField args n with
      | None => if isOptional s then [] else [n]
      | Some _ => []
      end ++ absentRequired rest args
  end.

(** The fields whose value fails the declared type check. *)
Fixpoint mistyped {T} (sh : shape T) (args : option (gmap string json))
  : list string :=
  match sh with
  | no_more => []
  | field n s rest =>
      match readField args n with
      | Some v => if conforms s v then [] else [n]
      | None => []
      end ++ mistyped rest args
  end.

(** The error the [catch] block throws for a validation failure. *)
Definition invalidArguments {A} (r : A + exn) : bool :=
  match r with
  | inr (Error m) => String.prefix "Invalid arguments: " m
  | _ => false
  end.

(** The rendering of the issues in the message of that error. *)
Definition renderIssues (issues : list issue) : string :=
  join ", " (map (fun e => join "." (path e) +:+ ": " +:+ message e) issues).

(** ** What an advertised schema says

    The reading of a descriptor as JSON Schema.  A zod schema object
    carries none of the JSON Schema keywords (there is no [type], no
    [oneOf], no [items] among its own properties), so as a descriptor it
    constrains nothing. *)
Definition jsonType (v : json) : string :=
  match v with
  | JNull => "null"
  | JBool _ => "boolean"
  | JNum _ => "number"
  | JStr _ => "string"
  | JArr _ => "array"
  | JObj _ => "object"
  end.

Fixpoint satisfies (d : descriptor) (v : json) : bool :=
  match d with
  | OfType t => String.eqb t (jsonType v)
  | ArrayOf items =>
      match v with JArr l => forallb (satisfies items) l | _ => false end
  | OneOf alternatives =>
      (length (List.filter (fun a => satisfies a v) alternatives) =? 1)%nat
  | ZodObject _ => true
  end.

(** The property descriptors and the required list a tool advertises. *)
Definition advertisedFields (t : tool) : list (string * descriptor) :=
  map (fun p => (propertyName p, propertySchema p))
    (properties (toolInputSchema t)).

Definition advertisedRequired (t : tool) : list string :=
  default [] (required (toolInputSchema t)).

(** An arguments object against the advertised schema of a tool: the
    required names are present, and each listed property that is present
    satisfies its descriptor; other properties are free. *)
Definition present (o : gmap string json) (n : string) : bool :=
  match o !! n with Some _ => true | None => false end.

Definition holds (o : gmap string json) (p : string * descriptor) : bool :=
  match o !! p.1 with
  | Some v => satisfies p.2 v
  | None => true
  end.

Definition accepts (t : tool) (o : gmap string json) : bool :=
  forallb (present o) (advertisedRequired t)
  && forallb (holds o) (advertisedFields t).

(** The JSON Schema descriptor that says what a zod schema checks. *)
Fixpoint jsonSchemaOf {A} (s : schema A) : descriptor :=
  match s with
  | z_string => OfType "string"
  | z_number => OfType "number"
  | z_boolean => OfType "boolean"
  | z_array item => ArrayOf (jsonSchemaOf item)
  | z_or a b => OneOf [jsonSchemaOf a; jsonSchemaOf b]
  | z_optional inner => jsonSchemaOf inner
  | z_default inner _ => jsonSchemaOf inner
  end.

Fixpoint describedFields {T} (sh : shape T) : list (string * descriptor) :=
  match sh with
  | no_more => []
  | field n s rest => (n, jsonSchemaOf s) :: describedFields rest
  end.

(** Whether the dispatcher's validation lets an arguments object through. *)
Definition validates (r : registered) (o : gmap string json) : bool :=
  match r with
  | Registered sh =>
      match parseObject sh (Some o) with inl _ => true | inr _ => false end
  end.

(** ** What the specification says about shutdown

    The exit statuses the specification asks for: zero after a clean
    termination signal, non-zero after a failure. *)
Definition exitsAsSpecified (t : trigger) (quit : option string) : Prop :=
  closesConnection (shutdown t quit) = true
  /\ match t with
     | OnSignal _ => exitStatus (shutdown t quit) = Some 0
     | _ => exists status,
              exitStatus (shutdown t quit) = Some status /\ status <> 0
     end.

(** ** What the specification says about the listing

    A field is described faithfully when its JSON Schema descriptor is
    satisfied by exactly the values that pass its type check. *)
Fixpoint faithfullyDescribed {T} (sh : shape T) : Prop :=
  match sh with
  | no_more => True
  | field _ s rest =>
      (forall v, satisfies (jsonSchemaOf s) v = conforms s v)
      /\ faithfullyDescribed rest
  end.

(** A listing entry matches the dispatcher: same name, the descriptors and
    the required list are those of the schema the dispatcher parses with,
    and the advertised schema accepts exactly the objects that pass
    validation. *)
Definition matchesValidation (t : tool) (entry : string * registered)
  : Prop :=
  name t = entry.1
  /\ match entry.2 with
     | Registered sh =>
         advertisedFields t = describedFields sh
         /\ advertisedRequired t = requiredNames sh
     end
  /\ forall o, accepts t o = validates entry.2 o.

(** The entries of the listing whose properties are zod schema objects. *)
Definition sortedSetTools : list string :=
  ["zadd"; "zrange"; "zrem"; "zscore"; "zrank"].

Definition isSortedSetTool (n : string) : bool :=
  existsb (String.eqb n) sortedSetTools.

(** ** Auxiliary notions for the proofs *)

(** A parse that found no issue. *)
Definition valid {A} (r : A + list issue) : bool :=
  match r with inl _ => true | inr _ => false end.

(** A handler body that hands exactly one command to the client and
    returns whatever the reply is. *)
Definition awaitsOnce {A} (p : program A) : Prop :=
  exists R (c : command R) k,
    p = Await c k /\ forall reply, exists a, k reply = Return a.

(** A branch of the dispatcher parses with the registered schema and hands
    the typed fields to a body that awaits one command. *)
Definition dispatches (entry : string * registered) : Prop :=
  match entry with
  | (n, Registered sh) =>
      exists body,
        (forall args, handlers n args = parseArgs sh args body)
        /\ forall fields, awaitsOnce (body fields)
  end.

(** Two clients for concrete runs: one whose connection is closed, which
    rejects every command; and, for the reference store, no support for
    the commands it does not model. *)
Definition closedClient (R : Type) (c : command R) (w : unit)
  : (R + string) * unit :=
  (inr "The client is closed", w).

Definition unsupported (R : Type) (c : command R) (ks : Store.keyspace)
  : (R + string) * Store.keyspace :=
  (inr "ERR unknown command", ks).

(** The claim on validation errors as the specification words it: the
    error is raised exactly when a required field is absent or a field is
    mistyped. *)
Definition raisedIffOffending (n : string) {T} (sh : shape T)
    (args : option (gmap string json)) : Prop :=
  forall (world : Type)
         (client : forall R, command R -> world -> (R + string) * world)
         (w : world),
    invalidArguments (result (run client (CallTool n args) w)) = true
    <-> absentRequired sh args <> [] \/ mistyped sh args <> [].

(** ** Further notions: the shape of every handler

    A handler body that hands exactly one command to the client and
    answers one text item rendered from the reply. *)
Definition awaitsForText (p : program CallToolResult) : Prop :=
  exists R (c : command R) k,
    p = Await c k /\ forall reply, exists t, k reply = replyText t.

Definition dispatchesForText (entry : string * registered) : Prop :=
  match entry with
  | (n, Registered sh) =>
      exists body,
        (forall args, handlers n args = parseArgs sh args body)
        /\ forall fields, awaitsForText (body fields)
  end.

(** The text of a body that has returned one text item. *)
Definition returnedText (p : program CallToolResult) : string :=
  match p with
  | Return {| content := [item] |} => text item
  | _ => ""
  end.


(** The fields a validation error has to name, in declaration order:
    absent though required, or present and failing the type check. *)
Fixpoint offendingFields {T} (sh : shape T) (o : gmap string json)
  : list string :=
  match sh with
  | no_more => []
  | field n s rest =>
      match o !! n with
      | None => if isOptional s then [] else [n]
      | Some v => if conforms s v then [] else [n]
      end ++ offendingFields rest o
  end.

(** A schema whose failure is reported at the field itself: anything but
    a bare array, whose issues lie at its elements. *)
Fixpoint reportsAtField {A} (s : schema A) : bool :=
  match s with
  | z_array _ => false
  | z_optional inner => reportsAtField inner
  | z_default inner _ => reportsAtField inner
  | _ => true
  end.

Fixpoint reportsAtFields {T} (sh : shape T) : bool :=
  match sh with
  | no_more => true
  | field _ s rest => reportsAtField s && reportsAtFields rest
  end.

(** * Properties *)

(** ** Reconnection *)

Lemma reconnectStrategy_below (i : N) :
  (i < MAX_RETRIES)%N ->
  fst (reconnectStrategy i)
  = Delay (N.min (2 ^ i * MIN_RETRY_DELAY) MAX_RETRY_DELAY).
Proof.
  intros Hi. unfold reconnectStrategy.
  destruct (N.leb_spec MAX_RETRIES i) as [Hle|_]; [lia|reflexivity].
Qed.

Lemma reconnectStrategy_exhausted (i : N) :
  (MAX_RETRIES <= i)%N ->
  fst (reconnectStrategy i) = GiveUp "Max retries reached".
Proof.
  intros Hi. unfold reconnectStrategy.
  destruct (N.leb_spec MAX_RETRIES i) as [_|Hlt]; [reflexivity|lia].
Qed.

Lemma connectLoop_backoff (attempts : list bool) :
  exists n, (n <= 5)%nat /\ fst (connectLoop attempts 0)
            = take n [1000; 2000; 4000; 8000; 16000]%N.
Proof.
  destruct attempts as [|[] a1]; [exists 0%nat; split; [lia|done]..|].
  destruct a1 as [|[] a2]; [exists 1%nat; split; [lia|done]..|].
  destruct a2 as [|[] a3]; [exists 2%nat; split; [lia|done]..|].
  destruct a3 as [|[] a4]; [exists 3%nat; split; [lia|done]..|].
  destruct a4 as [|[] a5]; [exists 4%nat; split; [lia|done]..|].
  exists 5%nat. split; [lia|].
  destruct a5 as [|[] a6]; reflexivity.
Qed.

(** C1.  For every retry count [i] from 0 to 4 the reconnection strategy
    answers the delay [min (2^i * 1000) 30000] milliseconds, which is
    1000, 2000, 4000, 8000, 16000 for the attempts 0 to 4; for every
    [i >= 5] it answers an error instead of a delay.  Hence, whatever the
    outcomes of the connection attempts, the delays ever scheduled are an
    initial segment of those five: there is no sixth reconnection, and
    six failures in a row end in [ReconnectExhausted]. *)
Theorem reconnect_schedule (i : N) :
  ((0 <= i <= 4)%N ->
   fst (reconnectStrategy i) = Delay (N.min (2 ^ i * 1000) 30000))
  /\ map (fun r => fst (reconnectStrategy r)) [0; 1; 2; 3; 4]%N
     = map Delay [1000; 2000; 4000; 8000; 16000]%N
  /\ ((5 <= i)%N -> exists e, fst (reconnectStrategy i) = GiveUp e)
  /\ (forall attempts : list bool,
        exists n, (n <= 5)%nat
                  /\ fst (connectLoop attempts 0)
                     = take n [1000; 2000; 4000; 8000; 16000]%N)
  /\ (forall rest : list bool,
        connectLoop ([false; false; false; false; false; false] ++ rest) 0
        = ([1000; 2000; 4000; 8000; 16000]%N, ReconnectExhausted)).
Proof.
  split; [|split; [|split; [|split]]].
  - intros [_ Hi]. apply reconnectStrategy_below. unfold MAX_RETRIES. lia.
  - reflexivity.
  - intros Hi. eexists. apply reconnectStrategy_exhausted. exact Hi.
  - exact connectLoop_backoff.
  - intros rest. reflexivity.
Qed.

Lemma reconnect_schedule_witness :
  fst (reconnectStrategy 3) = Delay (N.min (2 ^ 3 * 1000) 30000)
  /\ exists e, fst (reconnectStrategy 7) = GiveUp e.
Proof.
  split.
  - apply (proj1 (reconnect_schedule 3)). lia.
  - apply (proj1 (proj2 (proj2 (reconnect_schedule 7)))). lia.
Defined.

(** ** Shutdown *)

(** C2, as stated, fails: on SIGINT, with the connection closing cleanly,
    the process exits with status 1, not 0. *)
Lemma sigint_exits_nonzero :
  shutdown (OnSignal SIGINT) None = [RedisQuit; Exit 1]
  /\ exitStatus (shutdown (OnSignal SIGINT) None) = Some 1
  /\ ~ exitsAsSpecified (OnSignal SIGINT) None.
Proof.
  split; [reflexivity|]. split; [reflexivity|].
  intros [_ H]. simpl in H. discriminate H.
Qed.

(** C2, amended.  Whatever calls [cleanup] -- SIGINT, SIGTERM, a failure
    during startup, a rejection of [main] -- and whether or not closing
    the connection succeeds, the process asks the client to close the
    connection and then exits with status 1; in particular a failed
    initial connection makes [main] end with exit status 1. *)
Theorem shutdown_exits_with_one (t : trigger) (quit : option string) :
  closesConnection (shutdown t quit) = true
  /\ exitStatus (shutdown t quit) = Some 1
  /\ (forall (e : string) (transport : option string),
        closesConnection (main (Some e) transport quit) = true
        /\ exitStatus (main (Some e) transport quit) = Some 1)
  /\ (forall e : string,
        closesConnection (main None (Some e) quit) = true
        /\ exitStatus (main None (Some e) quit) = Some 1).
Proof.
  repeat split; destruct t, quit; reflexivity.
Qed.

(** ** Validation: the combinators *)

Lemma valid_merge {A B C} (f : A -> B -> C) x y :
  valid (merge f x y) = valid x && valid y.
Proof. destruct x, y; reflexivity. Qed.

Lemma valid_mergeArray {A} (rs : list (A + list issue)) :
  valid (mergeArray rs) = forallb valid rs.
Proof.
  induction rs as [|r rs IH]; [reflexivity|].
  simpl. rewrite valid_merge, IH. reflexivity.
Qed.

Lemma forallb_imap {A B} (g : B -> bool) (h : A -> bool)
    (f : nat -> A -> B) (l : list A) :
  (forall i x, g (f i x) = h x) -> forallb g (imap f l) = forallb h l.
Proof.
  revert f. induction l as [|x l IH]; intros f Hf; [reflexivity|].
  simpl. rewrite Hf. f_equal. apply IH. intros i y. apply Hf.
Qed.

(** The parser accepts a value exactly when the value passes the declared
    type check. *)
Lemma parse_conforms {A} (s : schema A) (p : list string) (v : json) :
  valid (parse s p (Some v)) = conforms s v.
Proof.
  revert p v.
  induction s as [| | |A item IH|A B a IHa b IHb|A inner IH|A inner IH d];
    intros p v; simpl.
  - destruct v; reflexivity.
  - destruct v; reflexivity.
  - destruct v; reflexivity.
  - destruct v as [| | | |l|]; try reflexivity.
    rewrite valid_mergeArray. apply forallb_imap. intros i x. apply IH.
  - rewrite <- (IHa p v), <- (IHb p v).
    destruct (parse a p (Some v)); [reflexivity|].
    destruct (parse b p (Some v)); reflexivity.
  - rewrite <- (IH p v). destruct (parse inner p (Some v)); reflexivity.
  - apply IH.
Qed.

(** The parser accepts an absent field exactly when the field is
    optional. *)
Lemma parse_undefined {A} (s : schema A) (p : list string) :
  valid (parse s p None) = isOptional s.
Proof.
  induction s as [| | |A item IH|A B a IHa b IHb|A inner IH|A inner IH d];
    simpl; try reflexivity.
  rewrite <- IHa, <- IHb.
  destruct (parse a p None); [reflexivity|].
  destruct (parse b p None); reflexivity.
Qed.

Lemma app_nil_iff {A} (l k : list A) : l ++ k = [] <-> l = [] /\ k = [].
Proof.
  split; [apply app_eq_nil|]. intros [-> ->]. reflexivity.
Qed.

(** An object passes validation exactly when no required field is absent
    and no field is mistyped. *)
Lemma parseFields_valid {T} (sh : shape T) (p : list string)
    (o : gmap string json) :
  valid (parseFields sh p o) = true
  <-> absentRequired sh (Some o) = [] /\ mistyped sh (Some o) = [].
Proof.
  induction sh as [|A B n s rest IH]; simpl; [tauto|].
  rewrite valid_merge, andb_true_iff, IH, !app_nil_iff.
  destruct (o !! n) as [v|].
  - rewrite parse_conforms. destruct (conforms s v); intuition congruence.
  - rewrite parse_undefined. destruct (isOptional s); intuition congruence.
Qed.

(** Properties that the schemas do not declare are not looked at. *)
Lemma parseFields_extra {T} (sh : shape T) (p : list string)
    (o : gmap string json) (k : string) (v : json) :
  k ∉ fieldNames sh -> parseFields sh p (<[k := v]> o) = parseFields sh p o.
Proof.
  induction sh as [|A B n s rest IH]; simpl; intros Hk; [reflexivity|].
  rewrite not_elem_of_cons in Hk. destruct Hk as [Hn Hk].
  rewrite lookup_insert_ne by done. rewrite IH by done. reflexivity.
Qed.

(** ** Validation: what the issues name *)

Lemma merge_issues {A B C} (P : issue -> Prop) (f : A -> B -> C) x y issues :
  (forall js, x = inr js -> js <> [] /\ Forall P js) ->
  (forall js, y = inr js -> js <> [] /\ Forall P js) ->
  merge f x y = inr issues -> issues <> [] /\ Forall P issues.
Proof.
  intros Hx Hy. destruct x as [a|i], y as [b|j]; simpl; intros H;
    inversion H; subst; clear H; auto.
  destruct (Hx i eq_refl) as [Hi Pi], (Hy j eq_refl) as [_ Pj].
  split; [|apply Forall_app; auto].
  intros [-> _]%app_eq_nil. contradiction.
Qed.

Lemma mergeArray_issues {A} (P : issue -> Prop)
    (rs : list (A + list issue)) issues :
  Forall (fun r => forall js, r = inr js -> js <> [] /\ Forall P js) rs ->
  mergeArray rs = inr issues -> issues <> [] /\ Forall P issues.
Proof.
  revert issues. induction rs as [|r rs IH]; intros issues Hrs; simpl.
  - discriminate.
  - inversion Hrs as [|? ? Hr Hrest]; subst.
    apply merge_issues; [exact Hr|]. intros js Hjs. apply IH; assumption.
Qed.

Lemma Forall_imap_intro {A B} (Q : B -> Prop) (f : nat -> A -> B)
    (l : list A) :
  (forall i x, Q (f i x)) -> Forall Q (imap f l).
Proof.
  revert f. induction l as [|x l IH]; intros f Hf; simpl; constructor.
  - apply Hf.
  - apply IH. intros i y. apply Hf.
Qed.

(** Every issue of a failed parse lies at or below the place parsed, and
    there is at least one. *)
Lemma parse_issues {A} (s : schema A) (p : list string) (v : option json)
    (issues : list issue) :
  parse s p v = inr issues ->
  issues <> [] /\ Forall (fun i => exists tail, path i = p ++ tail) issues.
Proof.
  assert (Hone : forall (q : list string) (m : string),
    [Issue q m] <> []
    /\ Forall (fun i => exists tail, path i = q ++ tail) [Issue q m]).
  { intros q m. split; [discriminate|].
    constructor; [|constructor]. exists []. simpl. by rewrite app_nil_r. }
  revert p v issues.
  induction s as [| | |A item IH|A B a IHa b IHb|A inner IH|A inner IH d];
    intros p v issues; simpl.
  - destruct v as [[]|]; intros H; inversion H; subst; apply Hone.
  - destruct v as [[]|]; intros H; inversion H; subst; apply Hone.
  - destruct v as [[]|]; intros H; inversion H; subst; apply Hone.
  - destruct v as [[| | | |l|]|];
      try (intros H; inversion H; subst; apply Hone).
    apply mergeArray_issues. apply Forall_imap_intro.
    intros i x js Hjs. destruct (IH _ _ _ Hjs) as [Hne Hall].
    split; [exact Hne|]. eapply Forall_impl; [exact Hall|].
    intros e [tail He]. exists (show_number (Z.of_nat i) :: tail).
    rewrite He, <- app_assoc. reflexivity.
  - destruct (parse a p v); [discriminate|].
    destruct (parse b p v); [discriminate|].
    intros H; inversion H; subst. apply Hone.
  - destruct v as [v|]; [|discriminate].
    destruct (parse inner p (Some v)) eqn:E; [discriminate|].
    intros H; inversion H; subst. eapply IH. exact E.
  - destruct v as [v|]; [|discriminate]. apply IH.
Qed.

(** Every issue of a failed validation starts at a declared field that is
    absent though required, or mistyped. *)
Lemma parseFields_issues {T} (sh : shape T) (o : gmap string json)
    (issues : list issue) :
  parseFields sh [] o = inr issues ->
  issues <> []
  /\ Forall (fun i => exists n tail,
                path i = n :: tail
                /\ n ∈ absentRequired sh (Some o) ++ mistyped sh (Some o))
       issues.
Proof.
  revert issues. induction sh as [|A B n s rest IH]; intros issues; simpl.
  - discriminate.
  - apply merge_issues.
    + intros js Hjs. destruct (parse_issues _ _ _ _ Hjs) as [Hne Hall].
      split; [exact Hne|]. eapply Forall_impl; [exact Hall|].
      intros e [tail He]. exists n, tail. split; [exact He|].
      assert (Hv : valid (parse s [n] (o !! n)) = false) by (by rewrite Hjs).
      destruct (o !! n) as [v|].
      * rewrite parse_conforms in Hv. rewrite Hv.
        rewrite !elem_of_app, list_elem_of_singleton. tauto.
      * rewrite parse_undefined in Hv. rewrite Hv.
        rewrite !elem_of_app, list_elem_of_singleton. tauto.
    + intros js Hjs. destruct (IH _ Hjs) as [Hne Hall].
      split; [exact Hne|]. eapply Forall_impl; [exact Hall|].
      intros e (m & tail & He & Hm). exists m, tail. split; [exact He|].
      rewrite !elem_of_app in *. tauto.
Qed.

(** ** The dispatcher and its registry *)

Ltac in_list :=
  repeat first [apply list_elem_of_here | apply list_elem_of_further].

Ltac split_fields :=
  repeat match goal with
         | t : (_ * _)%type |- _ => destruct t
         | t : unit |- _ => destruct t
         end.

Ltac branch :=
  eexists; split;
  [ intros ?; unfold handlers; simpl String.eqb; cbv iota; reflexivity
  | intros ?; split_fields; repeat case_match;
    eexists _, _, _; (split; [reflexivity|]);
    intros ?; cbv beta; repeat case_match; eexists; reflexivity ].

Lemma registry_dispatches : Forall dispatches registry.
Proof. unfold registry. repeat (constructor; [branch|]). constructor. Qed.

Lemma registered_dispatches (n : string) {T} (sh : shape T) :
  (n, Registered sh) ∈ registry ->
  exists body,
    (forall args, handlers n args = parseArgs sh args body)
    /\ forall fields, awaitsOnce (body fields).
Proof.
  intros Hin. pose proof registry_dispatches as H.
  rewrite Forall_forall in H. exact (H _ Hin).
Qed.

(** A name outside the registry reaches the final [else]. *)
Lemma unregistered_unknown (n : string) (args : option (gmap string json)) :
  n ∉ map fst registry -> handlers n args = Throw (Error ("Unknown tool: " +:+ n)).
Proof.
  intros Hn. unfold handlers.
  repeat match goal with
         | |- context [String.eqb n ?s] =>
             destruct (String.eqb_spec n s) as [->|_];
             [exfalso; apply Hn; simpl; in_list|]
         end.
  reflexivity.
Qed.

Lemma prefix_append (s x : string) : String.prefix s (s +:+ x) = true.
Proof.
  induction s as [|a s IH]; simpl.
  - destruct x; reflexivity.
  - destruct (ascii_dec a a) as [_|Hne]; [exact IH|congruence].
Qed.

Section Dispatch.

Context {world : Type}.
Variable client : forall R, command R -> world -> (R + string) * world.

Lemma run_issues (n : string) (args : option (gmap string json))
    (issues : list issue) (w : world) :
  handlers n args = Throw (ZodError issues) ->
  run client (CallTool n args) w
  = (inr (Error ("Invalid arguments: " +:+ renderIssues issues)), w, []).
Proof. intros H. unfold CallTool. simpl. rewrite H. reflexivity. Qed.

Lemma run_awaitsOnce (p : program CallToolResult) (w : world) :
  awaitsOnce p ->
  exists R (c : command R),
    trace (run client (TryCatch p catchBlock) w) = [Issued c]
    /\ invalidArguments (result (run client (TryCatch p catchBlock) w)) = false.
Proof.
  intros (R & c & k & -> & Hk). exists R, c. simpl.
  destruct (client R c w) as [[reply|rejection] w'].
  - destruct (Hk reply) as [a ->]. simpl. split; reflexivity.
  - simpl. split; reflexivity.
Qed.

(** What validation decides, for a registered tool: an error exactly when
    the arguments are missing altogether, a required field is absent or a
    field is mistyped; and in that case nothing reaches the client, the
    world is as it was, and the message lists issues that name offending
    fields. *)
Lemma validation_outcome (n : string) {T} (sh : shape T)
    (args : option (gmap string json)) (w : world) :
  (n, Registered sh) ∈ registry ->
  (invalidArguments (result (run client (CallTool n args) w)) = true
   <-> args = None \/ absentRequired sh args <> [] \/ mistyped sh args <> [])
  /\ (invalidArguments (result (run client (CallTool n args) w)) = true ->
      exists issues,
        run client (CallTool n args) w
        = (inr (Error ("Invalid arguments: " +:+ renderIssues issues)), w, [])
        /\ issues <> []
        /\ Forall (fun i =>
                     match args with
                     | None => path i = [] /\ message i = "Required"
                     | Some _ =>
                         exists f tail,
                           path i = f :: tail
                           /\ f ∈ absentRequired sh args ++ mistyped sh args
                     end) issues).
Proof.
  intros Hin. destruct (registered_dispatches n sh Hin) as (body & Hh & Hb).
  destruct (parseObject sh args) as [fields|issues] eqn:E.
  - (* validation passes *)
    assert (Hno : invalidArguments (result (run client (CallTool n args) w))
                  = false).
    { unfold CallTool. rewrite Hh. unfold parseArgs. rewrite E.
      destruct (run_awaitsOnce _ w (Hb fields)) as (R & c & _ & H). exact H. }
    rewrite Hno. destruct args as [o|]; [|discriminate E].
    assert (Hv : valid (parseFields sh [] o) = true).
    { unfold parseObject in E. by rewrite E. }
    apply parseFields_valid in Hv. destruct Hv as [Ha Hm].
    split; [|discriminate]. split; [discriminate|].
    intros [H|[H|H]]; [discriminate|contradiction..].
  - (* validation fails *)
    assert (Hrun := run_issues n args issues w).
    rewrite Hh in Hrun. unfold parseArgs in Hrun. rewrite E in Hrun.
    specialize (Hrun eq_refl). rewrite Hrun.
    assert (Hyes : invalidArguments
                     (result (inr (Error ("Invalid arguments: "
                                            +:+ renderIssues issues)), w,
                              @nil issued) : CallToolResult + exn) = true).
    { apply prefix_append. }
    split.
    + split; [|intros _; exact Hyes].
      intros _. destruct args as [o|]; [right|left; reflexivity].
      unfold parseObject in E.
      assert (Hv : valid (parseFields sh [] o) <> true) by (by rewrite E).
      rewrite parseFields_valid in Hv.
      destruct (absentRequired sh (Some o)); [|left; discriminate].
      destruct (mistyped sh (Some o)); [|right; discriminate].
      exfalso. apply Hv. split; reflexivity.
    + intros _. exists issues. split; [reflexivity|].
      destruct args as [o|].
      * apply parseFields_issues. exact E.
      * inversion E; subst. split; [discriminate|].
        constructor; [split; reflexivity|constructor].
Qed.

(** Undeclared properties change nothing. *)
Lemma extra_fields_ignored (n : string) {T} (sh : shape T)
    (o : gmap string json) (k : string) (v : json) (w : world) :
  (n, Registered sh) ∈ registry -> k ∉ fieldNames sh ->
  run client (CallTool n (Some (<[k := v]> o))) w
  = run client (CallTool n (Some o)) w.
Proof.
  intros Hin Hk. destruct (registered_dispatches n sh Hin) as (body & Hh & _).
  unfold CallTool. rewrite !Hh. unfold parseArgs, parseObject.
  rewrite parseFields_extra by exact Hk. reflexivity.
Qed.

End Dispatch.

(** ** Validation errors *)

(** C3, as stated, fails: [list] has no required field, and an invocation
    of [list] that carries no arguments has no mistyped field either, yet
    it is answered by the validation error. *)
Lemma list_without_arguments_rejected :
  run closedClient (CallTool "list" None) tt
  = (inr (Error "Invalid arguments: : Required"), tt, [])
  /\ requiredNames ListArgumentsSchema = []
  /\ absentRequired ListArgumentsSchema None = []
  /\ mistyped ListArgumentsSchema None = []
  /\ ~ raisedIffOffending "list" ListArgumentsSchema None.
Proof.
  repeat (split; [reflexivity|]).
  intros H. destruct (H unit closedClient tt) as [Hraise _].
  destruct (Hraise eq_refl) as [Hne|Hne]; apply Hne; reflexivity.
Qed.

Ltac passes_validation client w sh :=
  lazymatch goal with
  | |- invalidArguments (result (run _ (CallTool ?n ?args) _)) = false =>
      let Hraised := fresh "Hraised" in
      let Hin := fresh "Hin" in
      let Hiff := fresh "Hiff" in
      let Hno := fresh "Hno" in
      apply not_true_is_false; intros Hraised;
      assert (Hin : (n, Registered sh) ∈ registry)
        by (unfold registry; in_list);
      destruct (validation_outcome client n sh args w Hin) as [[Hiff _] _];
      destruct (Hiff Hraised) as [Hno|[Hno|Hno]];
      [discriminate Hno | apply Hno; reflexivity | apply Hno; reflexivity]
  end.

(** C3, amended.  For every invocation of a registered tool, the
    validation error is raised if and only if the invocation carries no
    arguments at all, a required field is absent, or the value of a field
    fails its declared type check.  When it is raised, no command reaches
    the store client and the world is untouched, and the message lists at
    least one issue; each issue names a field that is absent though
    required or mistyped (or, when there are no arguments, the empty path
    with the reason Required).  Undeclared extra fields change nothing,
    and the edge values -- an empty string as key, zero as score, negative
    range indices -- pass. *)
Theorem invalid_arguments_iff {world : Type}
    (client : forall R, command R -> world -> (R + string) * world)
    (n : string) {T : Type} (sh : shape T)
    (args : option (gmap string json)) (w : world) :
  (n, Registered sh) ∈ registry ->
  (invalidArguments (result (run client (CallTool n args) w)) = true
   <-> args = None \/ absentRequired sh args <> [] \/ mistyped sh args <> [])
  /\ (invalidArguments (result (run client (CallTool n args) w)) = true ->
      exists issues,
        run client (CallTool n args) w
        = (inr (Error ("Invalid arguments: " +:+ renderIssues issues)), w, [])
        /\ issues <> []
        /\ Forall (fun i =>
                     match args with
                     | None => path i = [] /\ message i = "Required"
                     | Some _ =>
                         exists f tail,
                           path i = f :: tail
                           /\ f ∈ absentRequired sh args ++ mistyped sh args
                     end) issues)
  /\ (forall o k v,
        args = Some o -> k ∉ fieldNames sh ->
        run client (CallTool n (Some (<[k := v]> o))) w
        = run client (CallTool n args) w)
  /\ invalidArguments
       (result (run client (CallTool "get" (Some {[ "key" := JStr "" ]})) w))
     = false
  /\ invalidArguments
       (result (run client
                  (CallTool "zadd"
                     (Some (<[ "key" := JStr "Z" ]>
                              (<[ "score" := JNum 0 ]>
                                 {[ "member" := JStr "m" ]})))) w))
     = false
  /\ invalidArguments
       (result (run client
                  (CallTool "lrange"
                     (Some (<[ "key" := JStr "L" ]>
                              (<[ "start" := JNum (-2) ]>
                                 {[ "stop" := JNum (-1) ]})))) w))
     = false.
Proof.
  intros Hin.
  destruct (validation_outcome client n sh args w Hin) as [Hiff Hraised].
  split; [exact Hiff|]. split; [exact Hraised|]. split.
  - intros o k v -> Hk. apply (extra_fields_ignored client n sh); assumption.
  - split; [passes_validation client w GetArgumentsSchema|].
    split; [passes_validation client w ZAddArgumentsSchema|].
    passes_validation client w LRangeArgumentsSchema.
Qed.

Lemma invalid_arguments_iff_witness :
  ("set", Registered SetArgumentsSchema) ∈ registry
  /\ (invalidArguments
        (result (run closedClient
                   (CallTool "set" (Some {[ "key" := JNum 3 ]})) tt)) = true
      <-> Some ({[ "key" := JNum 3 ]} : gmap string json) = None
          \/ absentRequired SetArgumentsSchema (Some {[ "key" := JNum 3 ]})
             <> []
          \/ mistyped SetArgumentsSchema (Some {[ "key" := JNum 3 ]}) <> []).
Proof.
  assert (Hin : ("set", Registered SetArgumentsSchema) ∈ registry)
    by (unfold registry; in_list).
  split; [exact Hin|].
  exact (proj1 (invalid_arguments_iff closedClient "set" SetArgumentsSchema
                  (Some {[ "key" := JNum 3 ]}) tt Hin)).
Defined.

(** ** The discovery listing *)

Lemma accepts_described {T} (sh : shape T) (o : gmap string json) :
  faithfullyDescribed sh ->
  forallb (present o) (requiredNames sh)
  && forallb (holds o) (describedFields sh)
  = valid (parseFields sh [] o).
Proof.
  induction sh as [|A B n s rest IH]; simpl; [reflexivity|].
  intros [Hs Hrest]. rewrite valid_merge, <- (IH Hrest).
  unfold holds at 1. simpl. unfold present.
  destruct (isOptional s) eqn:Hopt; simpl; unfold present;
    destruct (o !! n) as [v|] eqn:Hv.
  - rewrite parse_conforms, Hs.
    destruct (conforms s v), (forallb _ (requiredNames rest)); reflexivity.
  - rewrite parse_undefined, Hopt. reflexivity.
  - rewrite parse_conforms, Hs.
    destruct (conforms s v), (forallb _ (requiredNames rest)); reflexivity.
  - rewrite parse_undefined, Hopt. reflexivity.
Qed.

Lemma strings_described (l : list json) :
  forallb (satisfies (OfType "string")) l = forallb (conforms z_string) l.
Proof.
  induction l as [|v l IH]; [reflexivity|].
  cbn [forallb]. rewrite IH. f_equal. destruct v; reflexivity.
Qed.

Lemma stringOrArray_described (v : json) :
  satisfies (jsonSchemaOf (z_or z_string (z_array z_string))) v
  = conforms (z_or z_string (z_array z_string)) v.
Proof.
  destruct v as [| | | |l|]; try reflexivity.
  cbn [jsonSchemaOf satisfies conforms List.filter jsonType
       String.eqb Ascii.eqb Bool.eqb orb].
  rewrite strings_described. destruct (forallb _ l); reflexivity.
Qed.

Ltac faithful :=
  repeat match goal with
         | |- faithfullyDescribed _ => simpl
         | |- _ /\ _ => split
         | |- True => exact I
         | |- forall v : json, _ =>
             first [ exact stringOrArray_described
                   | let v := fresh "v" in intros v; destruct v; reflexivity ]
         end.

Ltac entry_matches :=
  split; [reflexivity|]; split; [split; reflexivity|];
  intros o; unfold accepts, validates, parseObject; cbn [snd];
  lazymatch goal with
  | |- _ = match parseFields ?sh _ _ with _ => _ end =>
      change (forallb (present o) (requiredNames sh)
              && forallb (holds o) (describedFields sh)
              = valid (parseFields sh [] o));
      apply accepts_described; faithful
  end.

(** The listing has the registered names, in the order of the dispatcher,
    each once. *)
Lemma listing_names :
  map name listTools = map fst registry /\ NoDup (map name listTools).
Proof.
  split; [reflexivity|].
  apply (bool_decide_unpack _). vm_compute. exact I.
Qed.

(** Entry by entry: every tool outside the sorted-set group advertises
    what the dispatcher validates. *)
Lemma described_entries_match :
  Forall2 (fun t e => isSortedSetTool (name t) = false -> matchesValidation t e)
    listTools registry.
Proof.
  unfold listTools, registry.
  repeat (constructor;
          [first [intros _; entry_matches | intros H; discriminate H]|]).
  constructor.
Qed.

(** Entry by entry: no sorted-set tool advertises the descriptors of the
    schema the dispatcher parses with. *)
Lemma sorted_set_entries_differ :
  Forall2 (fun t e => isSortedSetTool (name t) = true -> ~ matchesValidation t e)
    listTools registry.
Proof.
  unfold listTools, registry.
  repeat (constructor;
          [first [ intros H; discriminate H
                 | intros _ (_ & [H _] & _); discriminate H ]|]).
  constructor.
Qed.

(** C4.  The listing has exactly one entry per registered tool name, the
    names pairwise distinct; the registry is what the dispatcher parses
    with, branch by branch; and sixteen of the entries advertise the
    schema the dispatcher validates with.  The five sorted-set entries do
    not: their properties are zod schema objects instead of type
    descriptors, so the advertised schema of [zadd] accepts the arguments
    [{key: 5, score: 1, member: "m"}], which the dispatcher rejects with
    the error [key: Expected string, received number]. *)
Theorem zadd_listing_accepts_what_validation_rejects :
  let args : gmap string json :=
    <[ "key" := JNum 5 ]> (<[ "score" := JNum 1 ]> {[ "member" := JStr "m" ]})
  in
  map name listTools = map fst registry
  /\ NoDup (map name listTools)
  /\ Forall dispatches registry
  /\ Forall2 (fun t e => isSortedSetTool (name t) = false
                         -> matchesValidation t e) listTools registry
  /\ Forall2 (fun t e => isSortedSetTool (name t) = true
                         -> ~ matchesValidation t e) listTools registry
  /\ exists t,
       t ∈ listTools /\ name t = "zadd"
       /\ advertisedFields t
          = [("key", ZodObject z_string); ("score", ZodObject z_number);
             ("member", ZodObject z_string)]
       /\ accepts t args = true
       /\ validates (Registered ZAddArgumentsSchema) args = false
       /\ forall (world : Type)
                 (client : forall R, command R -> world -> (R + string) * world)
                 (w : world),
            run client (CallTool "zadd" (Some args)) w
            = (inr (Error
                      "Invalid arguments: key: Expected string, received number"),
               w, []).
Proof.
  intros args.
  split; [exact (proj1 listing_names)|]. split; [exact (proj2 listing_names)|].
  split; [exact registry_dispatches|].
  split; [exact described_entries_match|].
  split; [exact sorted_set_entries_differ|].
  eexists. split; [unfold listTools; do 14 apply list_elem_of_further;
                   apply list_elem_of_here|].
  split; [reflexivity|]. split; [reflexivity|].
  split; [reflexivity|]. split; [reflexivity|].
  intros world client w.
  rewrite (run_issues client "zadd" (Some args)
             [Issue ["key"] "Expected string, received number"]);
    reflexivity.
Qed.

(** ** One item or many *)

Lemma parse_strings (g : nat -> list string) (items : list string) :
  mergeArray (imap (fun i x => parse z_string (g i) (Some x)) (JStr <$> items))
  = inl items.
Proof.
  revert g. induction items as [|x items IH]; intros g; [reflexivity|].
  rewrite fmap_cons. cbn [imap mergeArray]. unfold compose.
  rewrite (IH (fun i => g (S i))). reflexivity.
Qed.

(** A string is parsed as the single item, an array of strings as the
    same strings in the same order. *)
Lemma parse_oneOrMany (p : list string) (v : string + list string) :
  parse (z_or z_string (z_array z_string)) p (Some (oneOrMany v)) = inl v.
Proof.
  destruct v as [item|items]; [reflexivity|].
  cbn [oneOrMany parse].
  rewrite (parse_strings (fun i => p ++ [show_number (Z.of_nat i)])).
  reflexivity.
Qed.

Lemma strings_parsed (g : nat -> list string) (l : list json)
    (items : list string) :
  mergeArray (imap (fun i x => parse z_string (g i) (Some x)) l) = inl items ->
  l = JStr <$> items.
Proof.
  revert g items. induction l as [|x l IH]; intros g items.
  - intros H; inversion H; reflexivity.
  - cbn [imap mergeArray]. unfold compose.
    destruct (mergeArray _) as [rest|] eqn:E;
      destruct x; try discriminate.
    intros H; inversion H; subst. rewrite fmap_cons. f_equal.
    exact (IH (fun i => g (S i)) rest E).
Qed.

(** And nothing else is parsed: whatever the field parser lets through
    is the JSON form of the value it returns. *)
Lemma oneOrMany_parsed (p : list string) (j : json) (v : string + list string) :
  parse (z_or z_string (z_array z_string)) p (Some j) = inl v ->
  j = oneOrMany v.
Proof.
  destruct j as [| | |s|l|]; try discriminate.
  - intros H; inversion H; reflexivity.
  - cbn [parse].
    destruct (mergeArray _) as [items|] eqn:E; [|discriminate].
    intros H; inversion H; subst. cbn [oneOrMany]. f_equal.
    exact (strings_parsed _ l items E).
Qed.

Lemma pushVerdictArguments_normalized (args : list string)
    (v : string + list string) :
  pushVerdictArguments args v = args ++ normalized v.
Proof. destruct v; reflexivity. Qed.

Section Handlers.

Context {world : Type}.
Variable client : forall R, command R -> world -> (R + string) * world.

(** Running a body that awaits one command and returns. *)
Lemma run_once {R} (c : command R) (k : R -> program CallToolResult)
    (f : R -> CallToolResult) (w : world) :
  (forall reply, k reply = Return (f reply)) ->
  run client (TryCatch (Await c k) catchBlock) w
  = match client R c w with
    | (inl reply, w') => (inl (f reply), w', [Issued c])
    | (inr rejection, w') => (inr (ClientError rejection), w', [Issued c])
    end.
Proof.
  intros Hk. simpl. destruct (client R c w) as [[reply|rejection] w'].
  - rewrite Hk. reflexivity.
  - reflexivity.
Qed.

End Handlers.

(** ** The reference store *)

Lemma zrem_count (members : list string) (z : gmap string Z) :
  0 <= fst (Store.zrem members z) <= Z.of_nat (length members)
  /\ ((exists m, m ∈ members /\ z !! m = None) ->
      fst (Store.zrem members z) < Z.of_nat (length members)).
Proof.
  revert z. induction members as [|x members IH]; intros z.
  - simpl. split; [lia|]. intros (m & Hm & _). inversion Hm.
  - cbn [Store.zrem length]. destruct (z !! x) as [score|] eqn:Hx.
    + destruct (IH (delete x z)) as [Hrange Hless].
      destruct (Store.zrem members (delete x z)) as [n z'] eqn:E.
      simpl in *. split; [lia|].
      intros (m & Hm & Hz). apply elem_of_cons in Hm.
      destruct Hm as [->|Hm]; [congruence|].
      assert (n < Z.of_nat (length members)); [|lia].
      apply Hless. exists m. split; [exact Hm|].
      destruct (decide (x = m)) as [->|Hne];
        [apply lookup_delete_eq|by rewrite lookup_delete_ne].
    + destruct (IH z) as [Hrange _]. split; lia.
Qed.

Lemma del_count (keys : list string) (ks : Store.keyspace) :
  0 <= fst (Store.del keys ks) <= Z.of_nat (length keys).
Proof.
  revert ks. induction keys as [|k keys IH]; intros ks.
  - simpl. lia.
  - cbn [Store.del length]. destruct (ks !! k).
    + specialize (IH (delete k ks)).
      destruct (Store.del keys (delete k ks)). simpl in *. lia.
    + specialize (IH ks). lia.
Qed.

(** ** The handlers, branch by branch *)

Ltac enter_branch :=
  unfold handlers; simpl String.eqb; cbv iota;
  unfold parseArgs, parseObject;
  cbv [SetArgumentsSchema GetArgumentsSchema DeleteArgumentsSchema
       LPushArgumentsSchema RPushArgumentsSchema ZRemArgumentsSchema];
  cbn [parseFields app].

Lemma delete_program (o : gmap string json) (v : string + list string) :
  o !! "key" = Some (oneOrMany v) ->
  handlers "delete" (Some o)
  = Await (DEL v)
      (fun _ => replyText
                  match v with
                  | inr keys =>
                      "Successfully deleted "
                        +:+ show_number (Z.of_nat (length keys)) +:+ " keys"
                  | inl key => "Successfully deleted key: " +:+ key
                  end).
Proof.
  intros Hkey. enter_branch. rewrite Hkey, parse_oneOrMany.
  destruct v; reflexivity.
Qed.

Lemma lpush_program (o : gmap string json) (key : string)
    (v : string + list string) :
  o !! "key" = Some (JStr key) -> o !! "value" = Some (oneOrMany v) ->
  handlers "lpush" (Some o)
  = Await (LPUSH key v)
      (fun result =>
         replyText ("成功添加到列表开头，新长度: " +:+ show_number result)).
Proof.
  intros Hkey Hv. enter_branch. rewrite Hkey, Hv, parse_oneOrMany.
  destruct v; reflexivity.
Qed.

Lemma rpush_program (o : gmap string json) (key : string)
    (v : string + list string) :
  o !! "key" = Some (JStr key) -> o !! "value" = Some (oneOrMany v) ->
  handlers "rpush" (Some o)
  = Await (RPUSH key v)
      (fun result =>
         replyText ("成功添加到列表末尾，新长度: " +:+ show_number result)).
Proof.
  intros Hkey Hv. enter_branch. rewrite Hkey, Hv, parse_oneOrMany.
  destruct v; reflexivity.
Qed.

Lemma zrem_program (o : gmap string json) (key : string)
    (v : string + list string) :
  o !! "key" = Some (JStr key) -> o !! "member" = Some (oneOrMany v) ->
  handlers "zrem" (Some o)
  = Await (ZREM key v)
      (fun result =>
         replyText ("从有序集合中移除了 " +:+ show_number result
                      +:+ " 个成员: " +:+ key)).
Proof.
  intros Hkey Hv. enter_branch. rewrite Hkey, Hv, parse_oneOrMany.
  destruct v; reflexivity.
Qed.

Lemma get_program (o : gmap string json) (key : string) :
  o !! "key" = Some (JStr key) ->
  handlers "get" (Some o)
  = Await (GET key)
      (fun value => match value with
                    | None => replyText ("Key not found: " +:+ key)
                    | Some value => replyText value
                    end).
Proof. intros Hkey. enter_branch. rewrite Hkey. reflexivity. Qed.

Lemma set_program (o : gmap string json) (key value : string) :
  o !! "key" = Some (JStr key) -> o !! "value" = Some (JStr value) ->
  o !! "expireSeconds" = Some (JNum 0) \/ o !! "expireSeconds" = None ->
  handlers "set" (Some o)
  = Await (SET key value)
      (fun _ => replyText ("Successfully set key: " +:+ key)).
Proof.
  intros Hkey Hv [He|He]; enter_branch; rewrite Hkey, Hv, He; reflexivity.
Qed.

(** ** One item or many: what is forwarded *)

(** C5.  For each one-or-many field -- the key of [delete], the value of
    [lpush] and [rpush], the member of [zrem] -- the handler hands the
    parsed value to the client in one command, and what goes on the wire
    is the command name (and key) followed by the canonical sequence: the
    single item for a scalar, exactly as for the one-element array, and
    the items of an array in their order, none dropped.  For [delete]
    with an array of keys, the response reports the number of keys
    given. *)
Theorem one_or_many_forwarded {world : Type}
    (client : forall R, command R -> world -> (R + string) * world)
    (w : world) (o : gmap string json) (key : string)
    (v : string + list string) :
  (o !! "key" = Some (oneOrMany v) ->
   trace (run client (CallTool "delete" (Some o)) w) = [Issued (DEL v)]
   /\ transformArguments (DEL v) = Some ("DEL" :: normalized v)
   /\ forall keys n w',
        v = inr keys -> client Z (DEL v) w = (inl n, w') ->
        result (run client (CallTool "delete" (Some o)) w)
        = inl (textResult ("Successfully deleted "
                             +:+ show_number (Z.of_nat (length keys))
                             +:+ " keys")))
  /\ (o !! "key" = Some (JStr key) -> o !! "value" = Some (oneOrMany v) ->
      trace (run client (CallTool "lpush" (Some o)) w)
      = [Issued (LPUSH key v)]
      /\ transformArguments (LPUSH key v)
         = Some ("LPUSH" :: key :: normalized v)
      /\ trace (run client (CallTool "rpush" (Some o)) w)
         = [Issued (RPUSH key v)]
      /\ transformArguments (RPUSH key v)
         = Some ("RPUSH" :: key :: normalized v))
  /\ (o !! "key" = Some (JStr key) -> o !! "member" = Some (oneOrMany v) ->
      trace (run client (CallTool "zrem" (Some o)) w)
      = [Issued (ZREM key v)]
      /\ transformArguments (ZREM key v)
         = Some ("ZREM" :: key :: normalized v))
  /\ (forall item : string, normalized (inl item) = normalized (inr [item]))
  /\ (forall items : list string, normalized (inr items) = items).
Proof.
  assert (Htrace : forall R (c : command R) k f,
             (forall reply, k reply = Return (f reply)) ->
             trace (run client (TryCatch (Await c k) catchBlock) w)
             = [Issued c]).
  { intros R c k f Hk. rewrite (run_once client c k f w Hk).
    destruct (client R c w) as [[reply|rejection] w']; reflexivity. }
  split; [|split; [|split; [|split]]].
  - intros Hkey. unfold CallTool. rewrite (delete_program o v Hkey).
    split; [|split].
    + eapply Htrace. intros reply. reflexivity.
    + simpl. rewrite pushVerdictArguments_normalized. reflexivity.
    + intros keys n w' -> Hreply.
      erewrite run_once by (intros reply; reflexivity).
      rewrite Hreply. reflexivity.
  - intros Hkey Hv. unfold CallTool.
    rewrite (lpush_program o key v Hkey Hv), (rpush_program o key v Hkey Hv).
    repeat split;
      first [ eapply Htrace; intros reply; reflexivity
            | simpl; rewrite pushVerdictArguments_normalized; reflexivity ].
  - intros Hkey Hv. unfold CallTool. rewrite (zrem_program o key v Hkey Hv).
    split.
    + eapply Htrace. intros reply. reflexivity.
    + simpl. rewrite pushVerdictArguments_normalized. reflexivity.
  - reflexivity.
  - reflexivity.
Qed.

Lemma one_or_many_forwarded_witness :
  let o : gmap string json := {[ "key" := JArr [JStr "a"; JStr "b"; JStr "a"] ]} in
  o !! "key" = Some (oneOrMany (inr ["a"; "b"; "a"]))
  /\ trace (run (Store.exec unsupported) (CallTool "delete" (Some o)) ∅)
     = [Issued (DEL (inr ["a"; "b"; "a"]))]
  /\ transformArguments (DEL (inr ["a"; "b"; "a"]))
     = Some ["DEL"; "a"; "b"; "a"].
Proof.
  intros o.
  assert (Hkey : o !! "key" = Some (oneOrMany (inr ["a"; "b"; "a"])))
    by reflexivity.
  split; [exact Hkey|].
  destruct (proj1 (one_or_many_forwarded (Store.exec unsupported) ∅ o ""
                     (inr ["a"; "b"; "a"])) Hkey) as (Ht & Hw & _).
  split; [exact Ht|exact Hw].
Defined.

(** ** The handlers one by one *)

(** C8.  When [set] is invoked with [expireSeconds] equal to 0, the
    handler takes the branch without expiry: the one command it hands to
    the client is the plain SET of the key and value, and the whole run is
    the run of the same invocation with [expireSeconds] left out. *)
Theorem set_with_zero_expiry {world : Type}
    (client : forall R, command R -> world -> (R + string) * world)
    (w : world) (o : gmap string json) (key value : string) :
  o !! "key" = Some (JStr key) ->
  o !! "value" = Some (JStr value) ->
  o !! "expireSeconds" = Some (JNum 0) ->
  CallTool "set" (Some o) = CallTool "set" (Some (delete "expireSeconds" o))
  /\ trace (run client (CallTool "set" (Some o)) w) = [Issued (SET key value)]
  /\ run client (CallTool "set" (Some o)) w
     = run client (CallTool "set" (Some (delete "expireSeconds" o))) w.
Proof.
  intros Hkey Hvalue Hzero.
  assert (Hwith := set_program o key value Hkey Hvalue (or_introl Hzero)).
  assert (Hwithout : handlers "set" (Some (delete "expireSeconds" o))
                     = handlers "set" (Some o)).
  { rewrite Hwith. apply set_program.
    - by rewrite lookup_delete_ne.
    - by rewrite lookup_delete_ne.
    - right. apply lookup_delete_eq. }
  unfold CallTool. rewrite Hwithout. split; [reflexivity|].
  split; [|reflexivity]. rewrite Hwith.
  erewrite run_once by (intros reply; reflexivity).
  destruct (client _ (SET key value) w) as [[reply|rejection] w']; reflexivity.
Qed.

Lemma set_with_zero_expiry_witness :
  let o : gmap string json :=
    <[ "key" := JStr "a" ]>
      (<[ "value" := JStr "1" ]> {[ "expireSeconds" := JNum 0 ]}) in
  trace (run (Store.exec unsupported) (CallTool "set" (Some o)) ∅)
  = [Issued (SET "a" "1")].
Proof.
  intros o.
  exact (proj1 (proj2 (set_with_zero_expiry (Store.exec unsupported) ∅ o
                         "a" "1" eq_refl eq_refl eq_refl))).
Defined.

(** C9.  The response of [delete] is a function of the validated key
    alone: whenever the store replies at all, whatever count it replies,
    a scalar key yields [Successfully deleted key: <key>] and an array of
    n keys yields [Successfully deleted n keys].  On the empty reference
    store, deleting the two keys a and b is answered by the store with the
    count 0, and by the tool with [Successfully deleted 2 keys]. *)
Theorem delete_response_ignores_reply {world : Type}
    (client : forall R, command R -> world -> (R + string) * world)
    (w w' : world) (o : gmap string json) (v : string + list string)
    (count : Z) :
  o !! "key" = Some (oneOrMany v) ->
  client Z (DEL v) w = (inl count, w') ->
  result (run client (CallTool "delete" (Some o)) w)
  = inl (textResult
           match v with
           | inl key => "Successfully deleted key: " +:+ key
           | inr keys =>
               "Successfully deleted "
                 +:+ show_number (Z.of_nat (length keys)) +:+ " keys"
           end)
  /\ Store.exec unsupported Z (DEL (inr ["a"; "b"])) ∅ = (inl 0, ∅)
  /\ result (run (Store.exec unsupported)
               (CallTool "delete"
                  (Some {[ "key" := JArr [JStr "a"; JStr "b"] ]})) ∅)
     = inl (textResult "Successfully deleted 2 keys").
Proof.
  intros Hkey Hreply. split; [|split; reflexivity].
  unfold CallTool. rewrite (delete_program o v Hkey).
  erewrite run_once by (intros reply; reflexivity).
  rewrite Hreply. destruct v; reflexivity.
Qed.

Lemma delete_response_ignores_reply_witness :
  result (run (Store.exec unsupported)
            (CallTool "delete" (Some {[ "key" := JStr "missing" ]})) ∅)
  = inl (textResult "Successfully deleted key: missing").
Proof.
  exact (proj1 (delete_response_ignores_reply (Store.exec unsupported) ∅ ∅
                  {[ "key" := JStr "missing" ]} (inl "missing") 0
                  eq_refl eq_refl)).
Defined.

(** C6.  For a key absent from the store, [get] answers the text
    [Key not found: <key>] and raises no error; it leaves the store as it
    was, so asking again gives the same answer; and whatever the
    arguments and the store, [get] leaves the store unchanged. *)
Theorem get_absent_key
    (other : forall R, command R -> Store.keyspace
                       -> (R + string) * Store.keyspace)
    (ks : Store.keyspace) (o : gmap string json) (key : string) :
  o !! "key" = Some (JStr key) ->
  ks !! key = None ->
  run (Store.exec other) (CallTool "get" (Some o)) ks
  = (inl (textResult ("Key not found: " +:+ key)), ks, [Issued (GET key)])
  /\ run (Store.exec other) (CallTool "get" (Some o))
       (final (run (Store.exec other) (CallTool "get" (Some o)) ks))
     = run (Store.exec other) (CallTool "get" (Some o)) ks
  /\ forall args ks',
       final (run (Store.exec other) (CallTool "get" args) ks') = ks'.
Proof.
  intros Hkey Habsent.
  assert (Hrun : run (Store.exec other) (CallTool "get" (Some o)) ks
                 = (inl (textResult ("Key not found: " +:+ key)), ks,
                    [Issued (GET key)])).
  { unfold CallTool. rewrite (get_program o key Hkey).
    simpl. rewrite Habsent. reflexivity. }
  split; [exact Hrun|]. split; [rewrite Hrun; exact Hrun|].
  intros args ks'. unfold CallTool, handlers. simpl String.eqb. cbv iota.
  unfold parseArgs.
  destruct (parseObject GetArgumentsSchema args) as [[key' []]|issues];
    [|reflexivity].
  simpl. destruct (ks' !! key') as [[]|]; reflexivity.
Qed.

Lemma get_absent_key_witness :
  run (Store.exec unsupported)
    (CallTool "get" (Some {[ "key" := JStr "missing" ]})) ∅
  = (inl (textResult "Key not found: missing"), ∅, [Issued (GET "missing")]).
Proof.
  exact (proj1 (get_absent_key unsupported ∅ {[ "key" := JStr "missing" ]}
                  "missing" eq_refl eq_refl)).
Defined.

(** C7.  After [zadd] with [{key: "Z", score: 5, member: "m"}] has
    succeeded, [zscore] with [{key: "Z", member: "m"}] succeeds, and its
    text reports the score as [5].  And [zadd] does succeed on every
    store where the key Z is absent or holds a sorted set. *)
Theorem zadd_then_zscore
    (other : forall R, command R -> Store.keyspace
                       -> (R + string) * Store.keyspace)
    (ks ks' : Store.keyspace) (added : CallToolResult)
    (t : list issued) :
  let zaddArgs : gmap string json :=
    <[ "key" := JStr "Z" ]>
      (<[ "score" := JNum 5 ]> {[ "member" := JStr "m" ]}) in
  let zscoreArgs : gmap string json :=
    <[ "key" := JStr "Z" ]> {[ "member" := JStr "m" ]} in
  (run (Store.exec other) (CallTool "zadd" (Some zaddArgs)) ks
   = (inl added, ks', t) ->
   run (Store.exec other) (CallTool "zscore" (Some zscoreArgs)) ks'
   = (inl (textResult ("分数: " +:+ "5")), ks', [Issued (ZSCORE "Z" "m")]))
  /\ (forall z, Store.sortedSetAt ks "Z" = Some z ->
      exists n,
        run (Store.exec other) (CallTool "zadd" (Some zaddArgs)) ks
        = (inl (textResult ("成功添加到有序集合，影响的成员数: "
                              +:+ show_number n)),
           <[ "Z" := Store.ZSet (<[ "m" := 5 ]> z) ]> ks,
           [Issued (ZADD "Z" [(5, "m")])])).
Proof.
  intros zaddArgs zscoreArgs.
  assert (Hadd : handlers "zadd" (Some zaddArgs)
                 = Await (ZADD "Z" [(5, "m")])
                     (fun result =>
                        replyText ("成功添加到有序集合，影响的成员数: "
                                     +:+ show_number result)))
    by reflexivity.
  assert (Hscore : handlers "zscore" (Some zscoreArgs)
                   = Await (ZSCORE "Z" "m")
                       (fun result =>
                          match result with
                          | None => replyText ("成员在有序集合中不存在: " +:+ "Z")
                          | Some result =>
                              replyText ("分数: " +:+ show_number result)
                          end))
    by reflexivity.
  assert (Hzadd : forall z0 : gmap string Z,
    exists n, Store.zadd [(5, "m")] z0 = (n, <[ "m" := 5 ]> z0)).
  { intros z0. simpl. eexists. reflexivity. }
  assert (Hafter : forall z0 : gmap string Z,
    run (Store.exec other) (CallTool "zscore" (Some zscoreArgs))
      (<[ "Z" := Store.ZSet (<[ "m" := 5 ]> z0) ]> ks)
    = (inl (textResult ("分数: " +:+ "5")),
       <[ "Z" := Store.ZSet (<[ "m" := 5 ]> z0) ]> ks,
       [Issued (ZSCORE "Z" "m")])).
  { intros z0. unfold CallTool. rewrite Hscore. simpl.
    rewrite lookup_insert_eq, lookup_insert_eq. reflexivity. }
  unfold CallTool at 1 3. rewrite Hadd.
  erewrite !run_once by (intros reply; reflexivity).
  cbn [Store.exec]. split.
  - destruct (ks !! "Z") as [[]|];
      try (intros H; discriminate H);
      match goal with
      | |- context [Store.zadd _ ?z0] =>
          destruct (Hzadd z0) as [n ->]; intros H; inversion H; subst;
          apply Hafter
      end.
  - intros z Hz. unfold Store.sortedSetAt in Hz.
    destruct (ks !! "Z") as [[]|]; inversion Hz; subst;
      match goal with
      | |- context [Store.zadd _ ?z0] =>
          destruct (Hzadd z0) as [n ->]; exists n; reflexivity
      end.
Qed.

Lemma zadd_then_zscore_witness :
  let zaddArgs : gmap string json :=
    <[ "key" := JStr "Z" ]>
      (<[ "score" := JNum 5 ]> {[ "member" := JStr "m" ]}) in
  let zscoreArgs : gmap string json :=
    <[ "key" := JStr "Z" ]> {[ "member" := JStr "m" ]} in
  let ks' : Store.keyspace := {[ "Z" := Store.ZSet {[ "m" := 5 ]} ]} in
  run (Store.exec unsupported) (CallTool "zadd" (Some zaddArgs)) ∅
  = (inl (textResult "成功添加到有序集合，影响的成员数: 1"), ks',
     [Issued (ZADD "Z" [(5, "m")])])
  /\ run (Store.exec unsupported) (CallTool "zscore" (Some zscoreArgs)) ks'
     = (inl (textResult "分数: 5"), ks', [Issued (ZSCORE "Z" "m")]).
Proof.
  intros zaddArgs zscoreArgs ks'.
  assert (Hzadd : run (Store.exec unsupported)
                    (CallTool "zadd" (Some zaddArgs)) ∅
                  = (inl (textResult "成功添加到有序集合，影响的成员数: 1"), ks',
                     [Issued (ZADD "Z" [(5, "m")])])) by reflexivity.
  split; [exact Hzadd|].
  exact (proj1 (zadd_then_zscore unsupported ∅ ks' _ _) Hzadd).
Defined.

(** C10.  The response of [zrem] reports the count in the store's reply.
    On the reference store, when the key is absent or holds a sorted set
    and some supplied member is not in it, that count -- and so the count
    in the response -- is strictly smaller than the number of members
    supplied. *)
Theorem zrem_reports_removed {world : Type}
    (client : forall R, command R -> world -> (R + string) * world)
    (w w' : world) (o : gmap string json) (key : string)
    (v : string + list string) (count : Z) :
  o !! "key" = Some (JStr key) ->
  o !! "member" = Some (oneOrMany v) ->
  (client Z (ZREM key v) w = (inl count, w') ->
   result (run client (CallTool "zrem" (Some o)) w)
   = inl (textResult ("从有序集合中移除了 " +:+ show_number count
                        +:+ " 个成员: " +:+ key)))
  /\ forall other (ks : Store.keyspace) (z : gmap string Z),
       Store.sortedSetAt ks key = Some z ->
       (exists m, m ∈ normalized v /\ z !! m = None) ->
       exists removed ks',
         Store.exec other Z (ZREM key v) ks = (inl removed, ks')
         /\ 0 <= removed < Z.of_nat (length (normalized v))
         /\ result (run (Store.exec other) (CallTool "zrem" (Some o)) ks)
            = inl (textResult ("从有序集合中移除了 " +:+ show_number removed
                                 +:+ " 个成员: " +:+ key)).
Proof.
  intros Hkey Hmember.
  assert (Hrun : forall world' (cl : forall R, command R -> world'
                                             -> (R + string) * world')
                        u u' n,
             cl Z (ZREM key v) u = (inl n, u') ->
             result (run cl (CallTool "zrem" (Some o)) u)
             = inl (textResult ("从有序集合中移除了 " +:+ show_number n
                                  +:+ " 个成员: " +:+ key))).
  { intros world' cl u u' n Hreply. unfold CallTool.
    rewrite (zrem_program o key v Hkey Hmember).
    erewrite run_once by (intros reply; reflexivity).
    rewrite Hreply. reflexivity. }
  split; [apply Hrun|].
  intros other ks z Hz (m & Hm & Habsent).
  assert (Hreply : exists removed ks',
             Store.exec other Z (ZREM key v) ks = (inl removed, ks')
             /\ 0 <= removed < Z.of_nat (length (normalized v))).
  { cbn [Store.exec]. unfold Store.sortedSetAt in Hz.
    destruct (normalized v) as [|x l] eqn:Hv; [inversion Hm|].
    destruct (ks !! key) as [[]|]; inversion Hz; subst.
    - destruct (zrem_count (x :: l) z) as [Hrange Hless].
      specialize (Hless (ex_intro _ m (conj Hm Habsent))).
      destruct (Store.zrem (x :: l) z) as [removed z'].
      eexists _, _. split; [reflexivity|]. simpl in *. lia.
    - eexists _, _. split; [reflexivity|]. simpl. lia. }
  destruct Hreply as (removed & ks' & Hexec & Hrange).
  exists removed, ks'. split; [exact Hexec|]. split; [exact Hrange|].
  eapply Hrun. exact Hexec.
Qed.

Lemma zrem_reports_removed_witness :
  let o : gmap string json :=
    <[ "key" := JStr "Z" ]> {[ "member" := JArr [JStr "m"; JStr "x"] ]} in
  let ks : Store.keyspace := {[ "Z" := Store.ZSet {[ "m" := 5 ]} ]} in
  result (run (Store.exec unsupported) (CallTool "zrem" (Some o)) ks)
  = inl (textResult ("从有序集合中移除了 " +:+ "1" +:+ " 个成员: " +:+ "Z"))
  /\ exists removed ks',
       Store.exec unsupported Z (ZREM "Z" (inr ["m"; "x"])) ks
       = (inl removed, ks')
       /\ 0 <= removed < 2.
Proof.
  intros o ks.
  pose proof (zrem_reports_removed (Store.exec unsupported) ks ∅ o "Z"
                (inr ["m"; "x"]) 1 eq_refl eq_refl) as [Htext Hless].
  split; [exact (Htext eq_refl)|].
  destruct (Hless unsupported ks {[ "m" := 5 ]} eq_refl) as
    (removed & ks' & Hexec & Hrange & _).
  - exists "x". split; [in_list|reflexivity].
  - exists removed, ks'. split; [exact Hexec|exact Hrange].
Defined.

(** * Further properties of the dispatcher *)

Ltac text_branch :=
  eexists; split;
  [ intros ?; unfold handlers; simpl String.eqb; cbv iota; reflexivity
  | intros ?; split_fields; repeat case_match;
    eexists _, _, _; (split; [reflexivity|]);
    intros ?; cbv beta; repeat case_match; eexists; reflexivity ].

Lemma registry_dispatchesForText : Forall dispatchesForText registry.
Proof.
  unfold registry. repeat (constructor; [text_branch|]). constructor.
Qed.

Lemma registered_dispatchesForText (n : string) {T} (sh : shape T) :
  (n, Registered sh) ∈ registry ->
  exists body,
    (forall args, handlers n args = parseArgs sh args body)
    /\ forall fields, awaitsForText (body fields).
Proof.
  intros Hin. pose proof registry_dispatchesForText as H.
  rewrite Forall_forall in H. exact (H _ Hin).
Qed.

Lemma registered_name (n : string) :
  n ∈ map fst registry -> exists T (sh : shape T), (n, Registered sh) ∈ registry.
Proof.
  intros Hn. apply list_elem_of_fmap in Hn.
  destruct Hn as ([n' [T sh]] & -> & Hin). exists T, sh. exact Hin.
Qed.

Lemma parseObject_issues {T} (sh : shape T) (args : option (gmap string json))
    (issues : list issue) :
  parseObject sh args = inr issues -> issues <> [].
Proof.
  destruct args as [o|]; simpl.
  - intros H. apply (parseFields_issues sh o issues H).
  - intros H; inversion H. discriminate.
Qed.

(** The run of a body that awaits once for a text. *)
Lemma run_awaitsForText (p : program CallToolResult) :
  awaitsForText p ->
  exists R (c : command R) (f : R -> string),
    forall (world : Type)
           (client : forall R, command R -> world -> (R + string) * world)
           (w : world),
      run client (TryCatch p catchBlock) w
      = match client R c w with
        | (inl reply, w') => (inl (textResult (f reply)), w', [Issued c])
        | (inr rejection, w') =>
            (inr (ClientError rejection), w', [Issued c])
        end.
Proof.
  intros (R & c & k & -> & Hk).
  exists R, c, (fun reply => returnedText (k reply)).
  intros world client w. apply run_once.
  intros reply. destruct (Hk reply) as [t Ht]. rewrite Ht. reflexivity.
Qed.

(** X1.  Every invocation, whatever the name and the arguments, ends in
    exactly one of four ways: one text item after exactly one store
    command; the rejection of the store client, unchanged, after exactly
    one command; the validation error, with at least one issue, no command
    and the world untouched; or the unknown-tool error, again with no
    command and the world untouched.  A [ZodError] never escapes, and no
    invocation hands more than one command to the store. *)
Theorem call_outcomes {world : Type}
    (client : forall R, command R -> world -> (R + string) * world)
    (n : string) (args : option (gmap string json)) (w : world) :
  (exists t w' R (c : command R),
     run client (CallTool n args) w = (inl (textResult t), w', [Issued c]))
  \/ (exists e w' R (c : command R),
        run client (CallTool n args) w
        = (inr (ClientError e), w', [Issued c]))
  \/ (exists issues,
        issues <> []
        /\ run client (CallTool n args) w
           = (inr (Error ("Invalid arguments: " +:+ renderIssues issues)),
              w, []))
  \/ ((n ∉ map fst registry)
      /\ run client (CallTool n args) w
         = (inr (Error ("Unknown tool: " +:+ n)), w, [])).
Proof.
  destruct (decide (n ∈ map fst registry)) as [Hn|Hn].
  - destruct (registered_name n Hn) as (T & sh & Hin).
    destruct (registered_dispatchesForText n sh Hin) as (body & Hh & Hb).
    destruct (parseObject sh args) as [fields|issues] eqn:E.
    + destruct (run_awaitsForText _ (Hb fields)) as (R & c & f & Hrun).
      unfold CallTool. rewrite Hh. unfold parseArgs. rewrite E, Hrun.
      destruct (client R c w) as [[reply|rejection] w'].
      * left. exists (f reply), w', R, c. reflexivity.
      * right; left. exists rejection, w', R, c. reflexivity.
    + right; right; left. exists issues.
      split; [exact (parseObject_issues sh args issues E)|].
      apply run_issues. rewrite Hh. unfold parseArgs. rewrite E. reflexivity.
  - right; right; right. split; [exact Hn|].
    unfold CallTool. rewrite (unregistered_unknown n args Hn). reflexivity.
Qed.

(** X2.  A name outside the twenty-one registered ones is answered by the
    error [Unknown tool: <name>] whatever the arguments are -- valid,
    invalid or missing --, before anything is validated or sent: no
    command is issued and the world is untouched.  The names are matched
    exactly: a registered name in another case is unknown. *)
Theorem unknown_tool_rejected {world : Type}
    (client : forall R, command R -> world -> (R + string) * world)
    (n : string) (args : option (gmap string json)) (w : world) :
  n ∉ map fst registry ->
  run client (CallTool n args) w
  = (inr (Error ("Unknown tool: " +:+ n)), w, [])
  /\ invalidArguments (result (run client (CallTool n args) w)) = false
  /\ run closedClient (CallTool "GET" (Some {[ "key" := JStr "a" ]})) tt
     = (inr (Error "Unknown tool: GET"), tt, []).
Proof.
  intros Hn.
  assert (Hrun : run client (CallTool n args) w
                 = (inr (Error ("Unknown tool: " +:+ n)), w, [])).
  { unfold CallTool. rewrite (unregistered_unknown n args Hn). reflexivity. }
  split; [exact Hrun|]. split; [|reflexivity].
  rewrite Hrun. reflexivity.
Qed.

Lemma unknown_tool_rejected_witness :
  ("subscribe" ∉ map fst registry)
  /\ run closedClient (CallTool "subscribe" None) tt
     = (inr (Error "Unknown tool: subscribe"), tt, []).
Proof.
  assert (Hn : "subscribe" ∉ map fst registry).
  { apply (bool_decide_unpack _). vm_compute. exact I. }
  split; [exact Hn|].
  exact (proj1 (unknown_tool_rejected closedClient "subscribe" None tt Hn)).
Defined.

(** X3.  For a registered tool whose arguments pass validation, the
    command handed to the store and the rendering of its reply are fixed
    by the name and the arguments alone.  Against every client the
    invocation issues that one command; a reply becomes one text item and
    leaves the world as the client left it; a rejection is passed on as it
    is -- never retried, never turned into a validation error. *)
Theorem valid_invocation_one_command (n : string) {T : Type} (sh : shape T)
    (args : option (gmap string json)) (fields : T) :
  (n, Registered sh) ∈ registry ->
  parseObject sh args = inl fields ->
  exists R (c : command R) (f : R -> string),
    forall (world : Type)
           (client : forall R, command R -> world -> (R + string) * world)
           (w : world),
      run client (CallTool n args) w
      = match client R c w with
        | (inl reply, w') => (inl (textResult (f reply)), w', [Issued c])
        | (inr rejection, w') =>
            (inr (ClientError rejection), w', [Issued c])
        end.
Proof.
  intros Hin Hvalid.
  destruct (registered_dispatchesForText n sh Hin) as (body & Hh & Hb).
  destruct (run_awaitsForText _ (Hb fields)) as (R & c & f & Hrun).
  exists R, c, f. intros world client w.
  unfold CallTool. rewrite Hh. unfold parseArgs. rewrite Hvalid.
  apply Hrun.
Qed.

Lemma valid_invocation_one_command_witness :
  exists R (c : command R) (f : R -> string),
    forall (world : Type)
           (client : forall R, command R -> world -> (R + string) * world)
           (w : world),
      run client (CallTool "incr" (Some {[ "key" := JStr "n" ]})) w
      = match client R c w with
        | (inl reply, w') => (inl (textResult (f reply)), w', [Issued c])
        | (inr rejection, w') =>
            (inr (ClientError rejection), w', [Issued c])
        end.
Proof.
  apply (valid_invocation_one_command "incr" IncrArgumentsSchema
           (Some {[ "key" := JStr "n" ]}) ("n", tt)).
  - unfold registry. in_list.
  - reflexivity.
Defined.

(** ** What a validation error lists *)

Lemma parse_reportsAtField {A} (s : schema A) (p : list string)
    (v : option json) (issues : list issue) :
  reportsAtField s = true ->
  parse s p v = inr issues -> exists m, issues = [Issue p m].
Proof.
  induction s as [| | |A item IH|A B a IHa b IHb|A inner IH|A inner IH d];
    simpl; intros Hflat.
  - destruct v as [[]|]; intros H; inversion H; eexists; reflexivity.
  - destruct v as [[]|]; intros H; inversion H; eexists; reflexivity.
  - destruct v as [[]|]; intros H; inversion H; eexists; reflexivity.
  - discriminate Hflat.
  - destruct (parse a p v); [discriminate|].
    destruct (parse b p v); [discriminate|].
    intros H; inversion H. eexists; reflexivity.
  - destruct v as [v|]; [|discriminate].
    destruct (parse inner p (Some v)) eqn:E; [discriminate|].
    intros H; inversion H; subst. apply IH; [exact Hflat|reflexivity].
  - destruct v as [v|]; [|discriminate]. apply IH. exact Hflat.
Qed.

Lemma parseFields_lists_offending {T} (sh : shape T) (o : gmap string json) :
  reportsAtFields sh = true ->
  match parseFields sh [] o with
  | inl _ => offendingFields sh o = []
  | inr issues =>
      map path issues = (fun f => [f]) <$> offendingFields sh o
  end.
Proof.
  induction sh as [|A B n s rest IH]; simpl; [reflexivity|].
  intros [Hs Hrest]%andb_true_iff. specialize (IH Hrest).
  assert (Hhead : match parse s [n] (o !! n) with
                  | inl _ => match o !! n with
                             | None => if isOptional s then [] else [n]
                             | Some v => if conforms s v then [] else [n]
                             end = []
                  | inr issues =>
                      map path issues = [[n]]
                      /\ match o !! n with
                         | None => if isOptional s then [] else [n]
                         | Some v => if conforms s v then [] else [n]
                         end = [n]
                  end).
  { pose proof (parse_reportsAtField s [n] (o !! n)) as Hone.
    destruct (o !! n) as [v|].
    - pose proof (parse_conforms s [n] v) as Hc.
      destruct (parse s [n] (Some v)) as [x|issues]; simpl in Hc;
        rewrite <- Hc; [reflexivity|].
      destruct (Hone issues Hs eq_refl) as [m ->]. split; reflexivity.
    - pose proof (parse_undefined s [n]) as Hc.
      destruct (parse s [n] None) as [x|issues]; simpl in Hc;
        rewrite <- Hc; [reflexivity|].
      destruct (Hone issues Hs eq_refl) as [m ->]. split; reflexivity. }
  destruct (parse s [n] (o !! n)) as [x|i1],
           (parseFields rest [] o) as [y|j]; simpl.
  - rewrite Hhead, IH. reflexivity.
  - rewrite Hhead. exact IH.
  - destruct Hhead as [Hp ->]. rewrite IH, Hp. reflexivity.
  - destruct Hhead as [Hp ->]. rewrite map_app, Hp, IH. reflexivity.
Qed.

Lemma registry_reportsAtFields :
  Forall (fun e => match e.2 with
                   | Registered sh => reportsAtFields sh = true
                   end) registry.
Proof. unfold registry. repeat (constructor; [reflexivity|]). constructor. Qed.

(** X4.  When the arguments object of a registered tool has offending
    fields -- required and absent, or present and mistyped -- the run ends
    in the validation error, and the issues in its message are at exactly
    those fields: every offending field once, none other, in the order
    the schema declares them (not only the first). *)
Theorem validation_error_lists_offending_fields {world : Type}
    (client : forall R, command R -> world -> (R + string) * world)
    (n : string) {T : Type} (sh : shape T) (o : gmap string json)
    (w : world) :
  (n, Registered sh) ∈ registry ->
  offendingFields sh o <> [] ->
  exists issues,
    run client (CallTool n (Some o)) w
    = (inr (Error ("Invalid arguments: " +:+ renderIssues issues)), w, [])
    /\ map path issues = (fun f => [f]) <$> offendingFields sh o.
Proof.
  intros Hin Hoff.
  destruct (registered_dispatches n sh Hin) as (body & Hh & _).
  pose proof registry_reportsAtFields as Hflat.
  rewrite Forall_forall in Hflat. specialize (Hflat _ Hin). simpl in Hflat.
  pose proof (parseFields_lists_offending sh o Hflat) as Hlist.
  destruct (parseFields sh [] o) as [fields|issues] eqn:E;
    [contradiction|].
  exists issues. split; [|exact Hlist].
  apply run_issues. rewrite Hh. unfold parseArgs, parseObject.
  rewrite E. reflexivity.
Qed.

Lemma validation_error_lists_offending_fields_witness :
  let o : gmap string json :=
    <[ "key" := JNum 3 ]> {[ "expireSeconds" := JStr "soon" ]} in
  offendingFields SetArgumentsSchema o = ["key"; "value"; "expireSeconds"]
  /\ exists issues,
       run closedClient (CallTool "set" (Some o)) tt
       = (inr (Error ("Invalid arguments: " +:+ renderIssues issues)), tt, [])
       /\ map path issues = [["key"]; ["value"]; ["expireSeconds"]].
Proof.
  intros o. split; [reflexivity|].
  apply (validation_error_lists_offending_fields closedClient "set"
           SetArgumentsSchema o tt).
  - unfold registry. in_list.
  - discriminate.
Defined.

(** X5.  A one-or-many field takes a string or an array of strings and
    nothing else: for any other value of [key] -- a number, null, an
    object, an array with one element that is not a string -- [delete]
    raises the validation error with the single issue
    [key: Invalid input], which names the field but neither the offending
    element nor the expected types; nothing is sent to the store. *)
Theorem delete_rejects_other_shapes {world : Type}
    (client : forall R, command R -> world -> (R + string) * world)
    (o : gmap string json) (j : json) (w : world) :
  o !! "key" = Some j ->
  (forall v, j <> oneOrMany v) ->
  run client (CallTool "delete" (Some o)) w
  = (inr (Error "Invalid arguments: key: Invalid input"), w, []).
Proof.
  intros Hkey Hshape.
  apply (run_issues client "delete" (Some o) [Issue ["key"] "Invalid input"]).
  enter_branch. rewrite Hkey.
  destruct (parse (z_or z_string (z_array z_string)) ["key"] (Some j))
    as [v|issues] eqn:E.
  - exfalso. apply (Hshape v). eapply oneOrMany_parsed. exact E.
  - cbn [parse] in E.
    destruct j as [| | |s|l|]; try discriminate E;
      try (inversion E; subst; reflexivity).
    destruct (mergeArray _); [discriminate E|].
    inversion E; subst. reflexivity.
Qed.

Lemma delete_rejects_other_shapes_witness :
  run closedClient
    (CallTool "delete" (Some {[ "key" := JArr [JStr "a"; JNum 1] ]})) tt
  = (inr (Error "Invalid arguments: key: Invalid input"), tt, []).
Proof.
  apply (delete_rejects_other_shapes closedClient
           {[ "key" := JArr [JStr "a"; JNum 1] ]} (JArr [JStr "a"; JNum 1]) tt).
  - reflexivity.
  - intros [item|items]; [discriminate|].
    destruct items as [|x [|y [|z items]]]; try discriminate.
Defined.

(** ** The remaining handlers, branch by branch *)

Ltac enter_tool :=
  unfold handlers; simpl String.eqb; cbv iota;
  unfold parseArgs, parseObject;
  cbv [SetArgumentsSchema GetArgumentsSchema DeleteArgumentsSchema
       ListArgumentsSchema HSetArgumentsSchema HGetArgumentsSchema
       HGetAllArgumentsSchema IncrArgumentsSchema ExpireArgumentsSchema
       LPushArgumentsSchema RPushArgumentsSchema LPopArgumentsSchema
       RPopArgumentsSchema LRangeArgumentsSchema ZAddArgumentsSchema
       ZRangeArgumentsSchema ZRemArgumentsSchema ZScoreArgumentsSchema
       ZRankArgumentsSchema PublishArgumentsSchema
       PubSubChannelsArgumentsSchema];
  cbn [parseFields app].

(** The run of an invocation whose branch awaits [c] and then answers a
    text. *)
Lemma run_tool {world : Type}
    (client : forall R, command R -> world -> (R + string) * world)
    (n : string) (args : option (gmap string json)) {R} (c : command R)
    (k : R -> program CallToolResult) (w : world) :
  handlers n args = Await c k ->
  (forall reply, exists t, k reply = replyText t) ->
  run client (CallTool n args) w
  = match client R c w with
    | (inl reply, w') =>
        (inl (textResult (returnedText (k reply))), w', [Issued c])
    | (inr rejection, w') => (inr (ClientError rejection), w', [Issued c])
    end.
Proof.
  intros Hprog Hk. unfold CallTool. rewrite Hprog. apply run_once.
  intros reply. destruct (Hk reply) as [t ->]. reflexivity.
Qed.

Ltac answers_text :=
  let reply := fresh "reply" in
  intros reply; cbv beta; repeat case_match; eexists; reflexivity.

(** X6.  [list] without a pattern asks the store for the keys matching
    [*], exactly as with the pattern [*] spelled out.  The keys the store
    replies are listed one per line, in the store's order, under the
    heading [Found keys:]; an empty reply is answered by
    [No keys found matching pattern], not by an empty text. *)
Theorem list_default_pattern {world : Type}
    (client : forall R, command R -> world -> (R + string) * world)
    (w w' : world) (o : gmap string json) (keys : list string) :
  o !! "pattern" = None ->
  client _ (KEYS "*") w = (inl keys, w') ->
  run client (CallTool "list" (Some o)) w
  = (inl (textResult
            match keys with
            | [] => "No keys found matching pattern"
            | _ => "Found keys:" +:+ nl +:+ join nl keys
            end), w', [Issued (KEYS "*")])
  /\ run client (CallTool "list" (Some (<[ "pattern" := JStr "*" ]> o))) w
     = run client (CallTool "list" (Some o)) w
  /\ run client (CallTool "list" (Some o)) w
     = run client (CallTool "list" (Some ∅)) w.
Proof.
  intros Hpattern Hreply.
  assert (Hprog : forall o' : gmap string json,
             o' !! "pattern" = None \/ o' !! "pattern" = Some (JStr "*") ->
             handlers "list" (Some o')
             = Await (KEYS "*")
                 (fun keys =>
                    replyText (if (0 <? Z.of_nat (length keys))
                               then "Found keys:" +:+ nl +:+ join nl keys
                               else "No keys found matching pattern"))).
  { intros o' [H|H]; enter_tool; rewrite H; reflexivity. }
  assert (Hsame : forall o' : gmap string json,
             o' !! "pattern" = None \/ o' !! "pattern" = Some (JStr "*") ->
             run client (CallTool "list" (Some o')) w
             = (inl (textResult
                       match keys with
                       | [] => "No keys found matching pattern"
                       | _ => "Found keys:" +:+ nl +:+ join nl keys
                       end), w', [Issued (KEYS "*")])).
  { intros o' H. rewrite (run_tool client "list" (Some o') _ _ w (Hprog o' H))
      by answers_text.
    rewrite Hreply. destruct keys; reflexivity. }
  split; [apply Hsame; left; exact Hpattern|].
  split.
  - rewrite !Hsame; [reflexivity|left; exact Hpattern|].
    right. apply lookup_insert_eq.
  - rewrite !Hsame; [reflexivity|left; reflexivity|left; exact Hpattern].
Qed.

Lemma list_default_pattern_witness :
  run (fun R (c : command R) (w : unit) =>
         match c in command R return (R + string) * unit with
         | KEYS _ => (inl ["a"; "b"], w)
         | _ => (inr "unsupported", w)
         end)
    (CallTool "list" (Some ∅)) tt
  = (inl (textResult ("Found keys:" +:+ nl +:+ "a" +:+ nl +:+ "b")), tt,
     [Issued (KEYS "*")]).
Proof.
  exact (proj1 (list_default_pattern _ tt tt ∅ ["a"; "b"] eq_refl eq_refl)).
Defined.

(** X7.  [pubsub_channels] treats an empty pattern like a missing one: in
    both cases the store is asked for the channels matching [*], and an
    empty reply is answered by the plain no-channel message.  A non-empty
    pattern is forwarded as it is and named in the no-channel message.
    Channels that are found are listed one per line. *)
Theorem pubsub_channels_pattern {world : Type}
    (client : forall R, command R -> world -> (R + string) * world)
    (w w' : world) (o : gmap string json) (p : string)
    (channels : list string) :
  (o !! "pattern" = None \/ o !! "pattern" = Some (JStr "") ->
   client _ (PUBSUB_CHANNELS "*") w = (inl channels, w') ->
   run client (CallTool "pubsub_channels" (Some o)) w
   = (inl (textResult
             match channels with
             | [] => "没有找到活跃的频道"
             | _ => "活跃的频道:" +:+ nl +:+ join nl channels
             end), w', [Issued (PUBSUB_CHANNELS "*")]))
  /\ (o !! "pattern" = Some (JStr p) -> p <> "" ->
      client _ (PUBSUB_CHANNELS p) w = (inl channels, w') ->
      run client (CallTool "pubsub_channels" (Some o)) w
      = (inl (textResult
                match channels with
                | [] => "没有找到活跃的频道" +:+ "匹配模式 " +:+ p
                | _ => "活跃的频道:" +:+ nl +:+ join nl channels
                end), w', [Issued (PUBSUB_CHANNELS p)])).
Proof.
  split.
  - intros Hpattern Hreply.
    assert (Hprog : handlers "pubsub_channels" (Some o)
                    = Await (PUBSUB_CHANNELS "*")
                        (fun channels =>
                           if (length channels =? 0)%nat
                           then replyText ("没有找到活跃的频道" +:+ "")
                           else replyText ("活跃的频道:" +:+ nl
                                             +:+ join nl channels))).
    { destruct Hpattern as [H|H]; enter_tool; rewrite H; reflexivity. }
    rewrite (run_tool client _ _ _ _ w Hprog) by answers_text.
    rewrite Hreply. destruct channels; reflexivity.
  - intros Hpattern Hp Hreply.
    assert (Hprog : handlers "pubsub_channels" (Some o)
                    = Await (PUBSUB_CHANNELS p)
                        (fun channels =>
                           if (length channels =? 0)%nat
                           then replyText ("没有找到活跃的频道"
                                             +:+ "匹配模式 " +:+ p)
                           else replyText ("活跃的频道:" +:+ nl
                                             +:+ join nl channels))).
    { enter_tool. rewrite Hpattern. cbn [parse merge].
      destruct p; [contradiction|reflexivity]. }
    rewrite (run_tool client _ _ _ _ w Hprog) by answers_text.
    rewrite Hreply. destruct channels; reflexivity.
Qed.

Lemma pubsub_channels_pattern_witness :
  run (fun R (c : command R) (w : unit) =>
         match c in command R return (R + string) * unit with
         | PUBSUB_CHANNELS _ => (inl [], w)
         | _ => (inr "unsupported", w)
         end)
    (CallTool "pubsub_channels" (Some {[ "pattern" := JStr "" ]})) tt
  = (inl (textResult "没有找到活跃的频道"), tt, [Issued (PUBSUB_CHANNELS "*")])
  /\ run (fun R (c : command R) (w : unit) =>
            match c in command R return (R + string) * unit with
            | PUBSUB_CHANNELS _ => (inl [], w)
            | _ => (inr "unsupported", w)
            end)
       (CallTool "pubsub_channels" (Some {[ "pattern" := JStr "news.*" ]})) tt
     = (inl (textResult "没有找到活跃的频道匹配模式 news.*"), tt,
        [Issued (PUBSUB_CHANNELS "news.*")]).
Proof.
  split.
  - exact (proj1 (pubsub_channels_pattern _ tt tt
                    {[ "pattern" := JStr "" ]} "" [])
             (or_intror eq_refl) eq_refl).
  - refine (proj2 (pubsub_channels_pattern _ tt tt
                     {[ "pattern" := JStr "news.*" ]} "news.*" [])
              eq_refl _ eq_refl).
    discriminate.
Defined.

(** X8.  [set] with an [expireSeconds] other than 0 stores the value with
    the one command SETEX, carrying the seconds as given -- a negative
    number is not checked here but forwarded to the store -- and answers
    the same confirmation as a plain [set]. *)
Theorem set_with_expiry {world : Type}
    (client : forall R, command R -> world -> (R + string) * world)
    (w w' : world) (o : gmap string json) (key value : string)
    (seconds : Z) (reply : string) :
  o !! "key" = Some (JStr key) ->
  o !! "value" = Some (JStr value) ->
  o !! "expireSeconds" = Some (JNum seconds) ->
  seconds <> 0 ->
  trace (run client (CallTool "set" (Some o)) w)
  = [Issued (SETEX key seconds value)]
  /\ (client _ (SETEX key seconds value) w = (inl reply, w') ->
      run client (CallTool "set" (Some o)) w
      = (inl (textResult ("Successfully set key: " +:+ key)), w',
         [Issued (SETEX key seconds value)])).
Proof.
  intros Hkey Hvalue Hseconds Hnonzero.
  assert (Hprog : handlers "set" (Some o)
                  = Await (SETEX key seconds value)
                      (fun _ => replyText ("Successfully set key: " +:+ key))).
  { enter_tool. rewrite Hkey, Hvalue, Hseconds. cbn [parse merge].
    unfold truthy_number. destruct (Z.eqb_spec seconds 0); [contradiction|].
    reflexivity. }
  rewrite (run_tool client _ _ _ _ w Hprog) by answers_text.
  split.
  - destruct (client _ (SETEX key seconds value) w) as [[r|e] u]; reflexivity.
  - intros ->. reflexivity.
Qed.

Lemma set_with_expiry_witness :
  let o : gmap string json :=
    <[ "key" := JStr "a" ]>
      (<[ "value" := JStr "1" ]> {[ "expireSeconds" := JNum (-1) ]}) in
  trace (run closedClient (CallTool "set" (Some o)) tt)
  = [Issued (SETEX "a" (-1) "1")].
Proof.
  intros o.
  refine (proj1 (set_with_expiry closedClient tt tt o "a" "1" (-1) ""
                   eq_refl eq_refl eq_refl _)).
  discriminate.
Defined.



(** X10.  The reads that reply one string -- [get], [hget], [lpop],
    [rpop] -- answer the string the store replied, verbatim, also when it
    is the empty string (which is not mistaken for an absent value); a
    nil reply is answered by a message naming the key (and the field),
    not by an error. *)
Theorem string_reads_rendered {world : Type}
    (client : forall R, command R -> world -> (R + string) * world)
    (w w' : world) (o : gmap string json) (key fld : string)
    (reply : option string) :
  o !! "key" = Some (JStr key) ->
  (client _ (GET key) w = (inl reply, w') ->
   run client (CallTool "get" (Some o)) w
   = (inl (textResult match reply with
                      | Some value => value
                      | None => "Key not found: " +:+ key
                      end), w', [Issued (GET key)]))
  /\ (o !! "field" = Some (JStr fld) ->
      client _ (HGET key fld) w = (inl reply, w') ->
      run client (CallTool "hget" (Some o)) w
      = (inl (textResult match reply with
                         | Some value => value
                         | None => "Field " +:+ fld
                                     +:+ " not found in hash key: " +:+ key
                         end), w', [Issued (HGET key fld)]))
  /\ (client _ (LPOP key) w = (inl reply, w') ->
      run client (CallTool "lpop" (Some o)) w
      = (inl (textResult match reply with
                         | Some value => value
                         | None => "列表为空或不存在: " +:+ key
                         end), w', [Issued (LPOP key)]))
  /\ (client _ (RPOP key) w = (inl reply, w') ->
      run client (CallTool "rpop" (Some o)) w
      = (inl (textResult match reply with
                         | Some value => value
                         | None => "列表为空或不存在: " +:+ key
                         end), w', [Issued (RPOP key)])).
Proof.
  intros Hkey. split; [|split; [|split]].
  - intros Hreply.
    rewrite (run_tool client _ _ _ _ w (get_program o key Hkey))
      by answers_text.
    rewrite Hreply. destruct reply; reflexivity.
  - intros Hfld Hreply.
    assert (Hprog : handlers "hget" (Some o)
                    = Await (HGET key fld)
                        (fun value =>
                           match value with
                           | None =>
                               replyText ("Field " +:+ fld
                                            +:+ " not found in hash key: "
                                            +:+ key)
                           | Some value => replyText value
                           end)).
    { enter_tool. rewrite Hkey, Hfld. reflexivity. }
    rewrite (run_tool client _ _ _ _ w Hprog) by answers_text.
    rewrite Hreply. destruct reply; reflexivity.
  - intros Hreply.
    assert (Hprog : handlers "lpop" (Some o)
                    = Await (LPOP key)
                        (fun result =>
                           match result with
                           | None => replyText ("列表为空或不存在: " +:+ key)
                           | Some result => replyText result
                           end)).
    { enter_tool. rewrite Hkey. reflexivity. }
    rewrite (run_tool client _ _ _ _ w Hprog) by answers_text.
    rewrite Hreply. destruct reply; reflexivity.
  - intros Hreply.
    assert (Hprog : handlers "rpop" (Some o)
                    = Await (RPOP key)
                        (fun result =>
                           match result with
                           | None => replyText ("列表为空或不存在: " +:+ key)
                           | Some result => replyText result
                           end)).
    { enter_tool. rewrite Hkey. reflexivity. }
    rewrite (run_tool client _ _ _ _ w Hprog) by answers_text.
    rewrite Hreply. destruct reply; reflexivity.
Qed.

Lemma string_reads_rendered_witness :
  let o : gmap string json :=
    <[ "key" := JStr "h" ]> {[ "field" := JStr "f" ]} in
  run (fun R (c : command R) (w : unit) =>
         match c in command R return (R + string) * unit with
         | HGET _ _ => (inl (Some ""), w)
         | _ => (inr "unsupported", w)
         end)
    (CallTool "hget" (Some o)) tt
  = (inl (textResult ""), tt, [Issued (HGET "h" "f")]).
Proof.
  intros o.
  exact (proj1 (proj2 (string_reads_rendered _ tt tt o "h" "f" (Some "")
                         eq_refl)) eq_refl eq_refl).
Defined.









(** * Further properties against the reference store *)

Lemma del_lookup (keys : list string) (ks : Store.keyspace) (k : string) :
  (Store.del keys ks).2 !! k = if decide (k ∈ keys) then None else ks !! k.
Proof.
  revert ks. induction keys as [|x keys IH]; intros ks.
  - simpl. destruct (decide (k ∈ [])) as [H|_]; [inversion H|reflexivity].
  - cbn [Store.del]. destruct (ks !! x) as [e|] eqn:Hx.
    + specialize (IH (delete x ks)).
      destruct (Store.del keys (delete x ks)) as [n ks']. simpl in *.
      rewrite IH.
      destruct (decide (k ∈ keys)) as [Hin|Hout];
        destruct (decide (k ∈ x :: keys)) as [Hin'|Hout'];
        try reflexivity.
      * exfalso. apply Hout'. by apply list_elem_of_further.
      * apply elem_of_cons in Hin'. destruct Hin' as [->|Hin']; [|done].
        apply lookup_delete_eq.
      * rewrite lookup_delete_ne; [reflexivity|].
        intros ->. apply Hout'. apply list_elem_of_here.
    + rewrite IH.
      destruct (decide (k ∈ keys)) as [Hin|Hout];
        destruct (decide (k ∈ x :: keys)) as [Hin'|Hout'];
        try reflexivity.
      * exfalso. apply Hout'. by apply list_elem_of_further.
      * apply elem_of_cons in Hin'. destruct Hin' as [->|Hin']; [|done].
        exact Hx.
Qed.

Lemma zrem_lookup (members : list string) (z : gmap string Z) (m : string) :
  (Store.zrem members z).2 !! m
  = if decide (m ∈ members) then None else z !! m.
Proof.
  revert z. induction members as [|x members IH]; intros z.
  - simpl. destruct (decide (m ∈ [])) as [H|_]; [inversion H|reflexivity].
  - cbn [Store.zrem]. destruct (z !! x) as [score|] eqn:Hx.
    + specialize (IH (delete x z)).
      destruct (Store.zrem members (delete x z)) as [n z']. simpl in *.
      rewrite IH.
      destruct (decide (m ∈ members)) as [Hin|Hout];
        destruct (decide (m ∈ x :: members)) as [Hin'|Hout'];
        try reflexivity.
      * exfalso. apply Hout'. by apply list_elem_of_further.
      * apply elem_of_cons in Hin'. destruct Hin' as [->|Hin']; [|done].
        apply lookup_delete_eq.
      * rewrite lookup_delete_ne; [reflexivity|].
        intros ->. apply Hout'. apply list_elem_of_here.
    + rewrite IH.
      destruct (decide (m ∈ members)) as [Hin|Hout];
        destruct (decide (m ∈ x :: members)) as [Hin'|Hout'];
        try reflexivity.
      * exfalso. apply Hout'. by apply list_elem_of_further.
      * apply elem_of_cons in Hin'. destruct Hin' as [->|Hin']; [|done].
        exact Hx.
Qed.

Section Reference.

Variable other : forall R, command R -> Store.keyspace
                           -> (R + string) * Store.keyspace.

(** X15.  What [set] stores, [get] answers: after a [set] without expiry
    of a key to a value -- whatever the key held before, a value of
    another kind included -- [get] of that key answers exactly the value,
    and the other keys are as they were. *)
Theorem set_then_get (ks : Store.keyspace) (oset oget : gmap string json)
    (key value : string) :
  oset !! "key" = Some (JStr key) ->
  oset !! "value" = Some (JStr value) ->
  oset !! "expireSeconds" = None \/ oset !! "expireSeconds" = Some (JNum 0) ->
  oget !! "key" = Some (JStr key) ->
  exists ks',
    run (Store.exec other) (CallTool "set" (Some oset)) ks
    = (inl (textResult ("Successfully set key: " +:+ key)), ks',
       [Issued (SET key value)])
    /\ run (Store.exec other) (CallTool "get" (Some oget)) ks'
       = (inl (textResult value), ks', [Issued (GET key)])
    /\ forall k, k <> key -> ks' !! k = ks !! k.
Proof.
  intros Hkey Hvalue Hexpire Hget.
  exists (<[ key := Store.Str value ]> ks).
  assert (Hprog := set_program oset key value Hkey Hvalue
                     (match Hexpire with
                      | or_introl H => or_intror H
                      | or_intror H => or_introl H
                      end)).
  split; [|split].
  - rewrite (run_tool _ _ _ _ _ ks Hprog) by answers_text. reflexivity.
  - rewrite (run_tool _ _ _ _ _ _ (get_program oget key Hget))
      by answers_text.
    cbn [Store.exec]. rewrite lookup_insert_eq. reflexivity.
  - intros k Hk. by rewrite lookup_insert_ne.
Qed.

(** X16.  What [delete] names, [get] no longer finds: after a [delete]
    of one key or of an array of keys, [get] of any of them answers
    [Key not found], whether or not the key was there; every key that was
    not named is as it was. *)
Theorem delete_then_get (ks : Store.keyspace) (odel oget : gmap string json)
    (v : string + list string) (key : string) :
  odel !! "key" = Some (oneOrMany v) ->
  key ∈ normalized v ->
  oget !! "key" = Some (JStr key) ->
  exists text ks',
    run (Store.exec other) (CallTool "delete" (Some odel)) ks
    = (inl (textResult text), ks', [Issued (DEL v)])
    /\ run (Store.exec other) (CallTool "get" (Some oget)) ks'
       = (inl (textResult ("Key not found: " +:+ key)), ks',
          [Issued (GET key)])
    /\ forall k, k ∉ normalized v -> ks' !! k = ks !! k.
Proof.
  intros Hdel Hin Hget.
  rewrite (run_tool _ _ _ _ _ ks (delete_program odel v Hdel))
    by answers_text.
  cbn [Store.exec].
  pose proof (del_lookup (normalized v) ks) as Hlookup.
  destruct (normalized v) as [|x l] eqn:Hv; [inversion Hin|].
  destruct (Store.del (x :: l) ks) as [n ks']. simpl in Hlookup.
  eexists _, ks'. split; [reflexivity|]. split.
  - rewrite (run_tool _ _ _ _ _ _ (get_program oget key Hget))
      by answers_text.
    cbn [Store.exec]. rewrite Hlookup.
    destruct (decide (key ∈ x :: l)); [reflexivity|contradiction].
  - intros k Hk. rewrite Hlookup.
    destruct (decide (k ∈ x :: l)); [contradiction|reflexivity].
Qed.

End Reference.

Lemma set_then_get_witness :
  let ks : Store.keyspace := {[ "a" := Store.ZSet {[ "m" := 5 ]} ]} in
  let oset : gmap string json :=
    <[ "key" := JStr "a" ]> {[ "value" := JStr "1" ]} in
  let oget : gmap string json := {[ "key" := JStr "a" ]} in
  exists ks',
    run (Store.exec unsupported) (CallTool "set" (Some oset)) ks
    = (inl (textResult "Successfully set key: a"), ks',
       [Issued (SET "a" "1")])
    /\ run (Store.exec unsupported) (CallTool "get" (Some oget)) ks'
       = (inl (textResult "1"), ks', [Issued (GET "a")]).
Proof.
  intros ks oset oget.
  destruct (set_then_get unsupported ks oset oget "a" "1"
              eq_refl eq_refl (or_introl eq_refl) eq_refl)
    as (ks' & Hset & Hget & _).
  exists ks'. split; [exact Hset|exact Hget].
Defined.

Lemma delete_then_get_witness :
  let ks : Store.keyspace :=
    <[ "a" := Store.Str "1" ]> {[ "c" := Store.Str "3" ]} in
  let odel : gmap string json := {[ "key" := JArr [JStr "a"; JStr "b"] ]} in
  let oget : gmap string json := {[ "key" := JStr "a" ]} in
  exists text ks',
    run (Store.exec unsupported) (CallTool "delete" (Some odel)) ks
    = (inl (textResult text), ks', [Issued (DEL (inr ["a"; "b"]))])
    /\ run (Store.exec unsupported) (CallTool "get" (Some oget)) ks'
       = (inl (textResult "Key not found: a"), ks', [Issued (GET "a")]).
Proof.
  intros ks odel oget.
  assert (Hin : "a" ∈ normalized (inr ["a"; "b"])) by (simpl; in_list).
  destruct (delete_then_get unsupported ks odel oget (inr ["a"; "b"]) "a"
              eq_refl Hin eq_refl)
    as (text & ks' & Hdel & Hget & _).
  exists text, ks'. split; [exact Hdel|exact Hget].
Defined.

Section ReferenceSortedSets.

Variable other : forall R, command R -> Store.keyspace
                           -> (R + string) * Store.keyspace.


(** X18.  What [zrem] names, [zscore] no longer finds: on a store where
    the key is absent or holds a sorted set, after a [zrem] of one member
    or of an array of members, [zscore] of any of them answers the
    not-found message. *)
Theorem zrem_then_zscore (ks : Store.keyspace) (z : gmap string Z)
    (orem oscore : gmap string json) (key member : string)
    (v : string + list string) :
  orem !! "key" = Some (JStr key) ->
  orem !! "member" = Some (oneOrMany v) ->
  oscore !! "key" = Some (JStr key) ->
  oscore !! "member" = Some (JStr member) ->
  Store.sortedSetAt ks key = Some z ->
  member ∈ normalized v ->
  exists text ks',
    run (Store.exec other) (CallTool "zrem" (Some orem)) ks
    = (inl (textResult text), ks', [Issued (ZREM key v)])
    /\ run (Store.exec other) (CallTool "zscore" (Some oscore)) ks'
       = (inl (textResult ("成员在有序集合中不存在: " +:+ key)), ks',
          [Issued (ZSCORE key member)]).
Proof.
  intros Hkey Hmembers Hkey' Hmember' Hz Hin.
  assert (Hread : handlers "zscore" (Some oscore)
                  = Await (ZSCORE key member)
                      (fun result =>
                         match result with
                         | None =>
                             replyText ("成员在有序集合中不存在: " +:+ key)
                         | Some result =>
                             replyText ("分数: " +:+ show_number result)
                         end)).
  { enter_tool. rewrite Hkey', Hmember'. reflexivity. }
  assert (Hnone : forall ks' : Store.keyspace,
             (ks' !! key = None
              \/ exists z', ks' !! key = Some (Store.ZSet z')
                            /\ z' !! member = None) ->
             run (Store.exec other) (CallTool "zscore" (Some oscore)) ks'
             = (inl (textResult ("成员在有序集合中不存在: " +:+ key)), ks',
                [Issued (ZSCORE key member)])).
  { intros ks' Hks'. rewrite (run_tool _ _ _ _ _ ks' Hread) by answers_text.
    cbn [Store.exec]. destruct Hks' as [->|(z' & -> & ->)]; reflexivity. }
  rewrite (run_tool _ _ _ _ _ ks (zrem_program orem key v Hkey Hmembers))
    by answers_text.
  cbn [Store.exec]. unfold Store.sortedSetAt in Hz.
  pose proof (zrem_lookup (normalized v) z member) as Hlookup.
  destruct (normalized v) as [|x l] eqn:Hv; [inversion Hin|].
  destruct (decide (member ∈ x :: l)); [|contradiction].
  destruct (ks !! key) as [[]|] eqn:Hks; inversion Hz; subst.
  - destruct (Store.zrem (x :: l) z) as [n z']. simpl in Hlookup.
    eexists _, _. split; [reflexivity|]. apply Hnone.
    destruct (decide (z' = ∅)).
    + left. apply lookup_delete_eq.
    + right. exists z'. split; [apply lookup_insert_eq|exact Hlookup].
  - eexists _, _. split; [reflexivity|]. apply Hnone. left. exact Hks.
Qed.

(** X19.  An error of the store is passed on as the store worded it: on a
    key that holds a value of another kind, [get] (on a hash, a list or a
    sorted set) and [zadd], [zscore], [zrem] (on a string) end in the
    store's WRONGTYPE rejection -- not in a not-found text and not in a
    validation error -- and the store is left as it was. *)
Theorem wrong_type_passed_on (ks : Store.keyspace) (o : gmap string json)
    (key member : string) (score : Z) (e : Store.entry) :
  o !! "key" = Some (JStr key) ->
  ks !! key = Some e ->
  ((forall value, e <> Store.Str value) ->
   run (Store.exec other) (CallTool "get" (Some o)) ks
   = (inr (ClientError Store.WRONGTYPE), ks, [Issued (GET key)]))
  /\ ((forall scores, e <> Store.ZSet scores) ->
      o !! "member" = Some (JStr member) ->
      run (Store.exec other) (CallTool "zscore" (Some o)) ks
      = (inr (ClientError Store.WRONGTYPE), ks, [Issued (ZSCORE key member)])
      /\ run (Store.exec other) (CallTool "zrem" (Some o)) ks
         = (inr (ClientError Store.WRONGTYPE), ks,
            [Issued (ZREM key (inl member))])
      /\ (o !! "score" = Some (JNum score) ->
          run (Store.exec other) (CallTool "zadd" (Some o)) ks
          = (inr (ClientError Store.WRONGTYPE), ks,
             [Issued (ZADD key [(score, member)])]))).
Proof.
  intros Hkey Hks. split.
  - intros Hkind.
    rewrite (run_tool _ _ _ _ _ ks (get_program o key Hkey)) by answers_text.
    cbn [Store.exec]. rewrite Hks.
    destruct e; try reflexivity. exfalso. by eapply Hkind.
  - intros Hkind Hmember. split; [|split].
    + assert (Hprog : handlers "zscore" (Some o)
                      = Await (ZSCORE key member)
                          (fun result =>
                             match result with
                             | None =>
                                 replyText ("成员在有序集合中不存在: " +:+ key)
                             | Some result =>
                                 replyText ("分数: " +:+ show_number result)
                             end)).
      { enter_tool. rewrite Hkey, Hmember. reflexivity. }
      rewrite (run_tool _ _ _ _ _ ks Hprog) by answers_text.
      cbn [Store.exec]. rewrite Hks.
      destruct e; try reflexivity. exfalso. by eapply Hkind.
    + rewrite (run_tool _ _ _ _ _ ks
                 (zrem_program o key (inl member) Hkey Hmember))
        by answers_text.
      cbn [Store.exec normalized]. rewrite Hks.
      destruct e; try reflexivity. exfalso. by eapply Hkind.
    + intros Hscore.
      assert (Hprog : handlers "zadd" (Some o)
                      = Await (ZADD key [(score, member)])
                          (fun result =>
                             replyText ("成功添加到有序集合，影响的成员数: "
                                          +:+ show_number result))).
      { enter_tool. rewrite Hkey, Hscore, Hmember. reflexivity. }
      rewrite (run_tool _ _ _ _ _ ks Hprog) by answers_text.
      cbn [Store.exec]. rewrite Hks.
      destruct e; try reflexivity. exfalso. by eapply Hkind.
Qed.

End ReferenceSortedSets.


Lemma zrem_then_zscore_witness :
  let ks : Store.keyspace := {[ "Z" := Store.ZSet {[ "m" := 5 ]} ]} in
  let orem : gmap string json :=
    <[ "key" := JStr "Z" ]> {[ "member" := JStr "m" ]} in
  exists text ks',
    run (Store.exec unsupported) (CallTool "zrem" (Some orem)) ks
    = (inl (textResult text), ks', [Issued (ZREM "Z" (inl "m"))])
    /\ run (Store.exec unsupported) (CallTool "zscore" (Some orem)) ks'
       = (inl (textResult "成员在有序集合中不存在: Z"), ks',
          [Issued (ZSCORE "Z" "m")]).
Proof.
  intros ks orem.
  assert (Hin : "m" ∈ normalized (inl "m")) by (simpl; in_list).
  exact (zrem_then_zscore unsupported ks {[ "m" := 5 ]} orem orem "Z" "m"
           (inl "m") eq_refl eq_refl eq_refl eq_refl eq_refl Hin).
Defined.

Lemma wrong_type_passed_on_witness :
  let ks : Store.keyspace := {[ "Z" := Store.ZSet {[ "m" := 5 ]} ]} in
  let o : gmap string json := {[ "key" := JStr "Z" ]} in
  run (Store.exec unsupported) (CallTool "get" (Some o)) ks
  = (inr (ClientError
            "WRONGTYPE Operation against a key holding the wrong kind of value"),
     ks, [Issued (GET "Z")]).
Proof.
  intros ks o.
  refine (proj1 (wrong_type_passed_on unsupported ks o "Z" "" 0
                   (Store.ZSet {[ "m" := 5 ]}) eq_refl eq_refl) _).
  intros value. discriminate.
Defined.

(** * Further properties of the connection and the lifecycle *)



(** X21.  A connection that comes back within the retry budget is
    recovered: when the first [k] attempts fail, with [k] at most five,
    and the next one succeeds, the client ends up connected after
    waiting exactly the first [k] delays of the schedule; while the
    failures last, and no more than five have happened, it is still
    connecting. *)
Theorem reconnects_within_budget (k : nat) (rest : list bool) :
  (k <= 5)%nat ->
  connectLoop (replicate k false ++ true :: rest) 0
  = (take k [1000; 2000; 4000; 8000; 16000]%N, Connected)
  /\ connectLoop (replicate k false) 0
     = (take k [1000; 2000; 4000; 8000; 16000]%N, Connecting).
Proof.
  intros Hk.
  do 6 (destruct k as [|k]; [split; reflexivity|]). lia.
Qed.

Lemma reconnects_within_budget_witness :
  connectLoop [false; false; true] 0 = ([1000; 2000]%N, Connected).
Proof.
  exact (proj1 (reconnects_within_budget 2 [] ltac:(lia))).
Defined.

(** X22.  Startup is sequential: the store connection is attempted
    first, and the tool transport is connected only if it succeeded, so
    no invocation can arrive before the store is connected.  When both
    succeed the process reports that it is running and neither closes the
    connection nor exits; when either fails it logs the failure, runs
    [cleanup] and exits. *)
Theorem startup_is_sequential (connect transport quit : option string) :
  (exists rest, main connect transport quit = RedisConnect :: rest)
  /\ (ServerConnect ∈ main connect transport quit <-> connect = None)
  /\ (exitStatus (main connect transport quit) = None
      <-> connect = None /\ transport = None)
  /\ (closesConnection (main connect transport quit) = false
      <-> connect = None /\ transport = None)
  /\ main None None quit
     = [RedisConnect; ServerConnect;
        ConsoleError "Redis MCP Server running on stdio"].
Proof.
  split; [eexists; reflexivity|].
  split; [|split; [|split; [|reflexivity]]].
  - destruct connect as [e|]; simpl.
    + split; [|discriminate]. intros H. exfalso.
      destruct quit; simpl in H;
        repeat (apply elem_of_cons in H; destruct H as [H|H];
                [discriminate H|]);
        inversion H.
    + split; [reflexivity|]. intros _. in_list.
  - destruct connect, transport, quit; simpl;
      split; try discriminate; try (intros [H1 H2]; discriminate);
      try (intros _; split; reflexivity); reflexivity.
  - destruct connect, transport, quit; simpl;
      split; try discriminate; try (intros [H1 H2]; discriminate);
      try (intros _; split; reflexivity); reflexivity.
Qed.

(** X23.  Shutdown is sequential too: whatever triggers it, the client is
    asked to quit before the process exits, the exit is the last thing
    that happens, and a quit that fails is logged and does not keep the
    process from exiting. *)
Theorem shutdown_is_sequential (t : trigger) (quit : option string) :
  (exists before between,
     shutdown t quit = before ++ RedisQuit :: between ++ [Exit 1]
     /\ exitStatus (before ++ RedisQuit :: between) = None)
  /\ (forall e, quit = Some e ->
        ConsoleError ("Error during cleanup: " +:+ e) ∈ shutdown t quit).
Proof.
  split.
  - destruct t, quit; simpl;
      first [ eexists [], [_]; split; reflexivity
            | eexists [], []; split; reflexivity
            | eexists [_], [_]; split; reflexivity
            | eexists [_], []; split; reflexivity ].
  - intros e ->. destruct t; simpl; in_list.
Qed.

Lemma shutdown_is_sequential_witness :
  shutdown (StartupFailure "ECONNREFUSED") (Some "The client is closed")
  = [ConsoleError "Error during startup: ECONNREFUSED"; RedisQuit;
     ConsoleError "Error during cleanup: The client is closed"; Exit 1]
  /\ ConsoleError "Error during cleanup: The client is closed"
     ∈ shutdown (StartupFailure "ECONNREFUSED") (Some "The client is closed").
Proof.
  split; [reflexivity|].
  exact (proj2 (shutdown_is_sequential (StartupFailure "ECONNREFUSED")
                  (Some "The client is closed")) _ eq_refl).
Defined.

(** * Further properties of the listing *)

Lemma required_present {T} (sh : shape T) (o : gmap string json) :
  valid (parseFields sh [] o) = true ->
  forallb (present o) (requiredNames sh) = true.
Proof.
  induction sh as [|A B n s rest IH]; simpl; [reflexivity|].
  rewrite valid_merge, andb_true_iff. intros [Hs Hrest].
  destruct (isOptional s) eqn:Hopt; [exact (IH Hrest)|].
  simpl. rewrite (IH Hrest), andb_true_r. unfold present.
  destruct (o !! n) as [v|]; [reflexivity|].
  rewrite parse_undefined, Hopt in Hs. discriminate Hs.
Qed.

(** X24.  For every one of the twenty-one tools the listing names the
    same properties, in the same order, and the same required fields as
    the schema the dispatcher validates with; and the advertised schema
    is never the stricter one: whatever arguments object passes the
    dispatcher's validation is accepted by the advertised schema. *)
Theorem listing_never_stricter :
  Forall2 (fun t e =>
             name t = e.1
             /\ match e.2 with
                | Registered sh =>
                    map fst (advertisedFields t) = fieldNames sh
                    /\ advertisedRequired t = requiredNames sh
                end
             /\ forall o, validates e.2 o = true -> accepts t o = true)
    listTools registry.
Proof.
  pose proof described_entries_match as Hmatch.
  unfold listTools, registry in *.
  repeat match goal with
         | H : Forall2 _ (_ :: _) (_ :: _) |- _ =>
             apply Forall2_cons in H; destruct H as [? H]
         end.
  repeat (constructor;
          [ first
              [ match goal with
                | Hm : isSortedSetTool _ = false -> matchesValidation _ _
                  |- _ =>
                    destruct (Hm eq_refl) as (Hname & [Hfields Hreq] & Hsame);
                    split; [exact Hname|];
                    split; [split; [reflexivity|exact Hreq]|];
                    intros o Hvalid; rewrite Hsame; exact Hvalid
                end
              | split; [reflexivity|]; split; [split; reflexivity|];
                intros o Hvalid; unfold validates, parseObject in Hvalid;
                cbn [snd] in Hvalid;
                lazymatch type of Hvalid with
                | match parseFields ?sh _ _ with _ => _ end = true =>
                    assert (Hreq : forallb (present o) (requiredNames sh)
                                   = true)
                      by (apply required_present; unfold valid;
                          exact Hvalid);
                    unfold accepts; apply andb_true_iff;
                    split; [exact Hreq|];
                    unfold holds; simpl; repeat case_match; reflexivity
                end ]
          | ]).
  constructor.
Qed.
